(** * Verification of the gauge component's [throttle] hook

    Source: [src/lib/GaugeComponent/hooks/throttle.ts].

    [throttle(func, wait)] returns a wrapper [throttled] with a [cancel]
    method.  The two share three closure variables ([timeoutId], [lastArgs],
    [lastCallTime]) and talk to the host through [Date.now], [setTimeout] and
    [clearTimeout].

    The embedding is a state machine.  The closure variables form the record
    [Vars]; the host's table of active timers is the record [Host]; one step
    is a call of the wrapper, a call of [cancel], or the host running a timer
    callback.  Every reading of [Date.now()] is an input of the step that
    performs it, so a theorem that does not restrict those readings holds for
    every clock, monotone or not.  What a step does to the outside world
    (calling [func], [setTimeout], [clearTimeout]) is logged as a list of
    [Effect]s.

    Times are integers ([Z]): [Date.now()] returns integer milliseconds,
    [wait] is taken to be an integer, and on integers of magnitude below 2^53
    the subtraction of JS numbers is the subtraction of [Z].

    [func] is opaque.  It may return or throw ([Outcome]), and it may call
    the wrapper or [cancel] while it runs.  In the leading-edge branch the
    call of [func] is the last statement, so what [func] calls from there is
    a sequence of further steps of the machine.  In the timer callback
    [lastArgs = null] follows the call of [func]: the machine of [step] takes
    the callback as one step, which is the callback of a [func] that does
    not call the wrapper from inside it; the machine of [move] splits the
    callback in two, so that the calls [func] makes lie in between. *)

From Stdlib Require Import ZArith List Lia.
From stdpp Require Import base option gmap sorting strings.
Import ListNotations.

Local Open Scope Z_scope.

(** ** Data *)

(** How a call of [func] ends. *)
Inductive Outcome : Set := Returns | Throws.

Section Throttle.

Context {This Args : Type}.

(** The arrow function handed to [setTimeout], as the host stores it: the
    delay it was given, the clock reading of the wrapper call that created it,
    and the [this] and [args] of that call, which the closure captures.  The
    body of the callback uses [this] and the shared variables only; [t_args]
    records which call created the timer. *)
Record Timer : Type := mkTimer {
  t_delay : Z;
  t_set : Z;
  t_this : This;
  t_args : Args
}.

(** The time a timer is due. *)
Definition t_due (cb : Timer) : Z := t_set cb + t_delay cb.

(** The closure variables of [throttle].  A timer handle is a [positive]: the
    ids of [setTimeout] are truthy, which [if (timeoutId)] relies on; an
    argument array is truthy too, so [if (lastArgs)] tests for [null]. *)
Record Vars : Type := mkVars {
  timeoutId : option positive;
  lastArgs : option Args;
  lastCallTime : Z
}.

(** The host's timers: the active ones by id, and the next id it hands out. *)
Record Host : Type := mkHost {
  timers : gmap positive Timer;
  nextId : positive
}.

Record World : Type := mkWorld {
  vars : Vars;
  host : Host
}.

Inductive Effect : Type :=
| Invoke (this : This) (args : Args)      (* func.apply(this, args) *)
| SetTimeout (id : positive) (delay : Z)  (* id = setTimeout(..., delay) *)
| ClearTimeout (id : positive).           (* clearTimeout(id) *)

(** ** The host's timer facility *)

Definition setTimeout (cb : Timer) (h : Host) : positive * Host :=
  (nextId h,
   {| timers := <[nextId h := cb]> (timers h);
      nextId := Pos.succ (nextId h) |}).

Definition clearTimeout (id : positive) (h : Host) : Host :=
  {| timers := delete id (timers h); nextId := nextId h |}.

(** ** The code of [throttle] *)

Variable wait : Z.

(** [let timeoutId = null; let lastArgs = null; let lastCallTime = 0]. *)
Definition init_vars : Vars :=
  {| timeoutId := None; lastArgs := None; lastCallTime := 0 |}.

Definition init : World :=
  {| vars := init_vars; host := {| timers := ∅; nextId := 1%positive |} |}.

(** [const remaining = wait - (now - lastCallTime)]. *)
Definition remaining_at (now last : Z) : Z := wait - (now - last).

(** [remaining <= 0 || remaining > wait]. *)
Definition leading (now last : Z) : bool :=
  (remaining_at now last <=? 0) || (wait <? remaining_at now last).

(** [if (timeoutId) { clearTimeout(timeoutId); timeoutId = null; }], shared
    by the leading-edge branch and [cancel]: the host after it, and its log.
    [timeoutId] is [null] afterwards in both cases. *)
Definition clear_pending (w : World) : Host * list Effect :=
  match timeoutId (vars w) with
  | Some id => (clearTimeout id (host w), [ClearTimeout id])
  | None => (host w, [])
  end.

(** The wrapper, called with [this] and [args] while [Date.now()] is [now].
    If [func] throws in the first branch, the exception leaves the wrapper
    with the same state: the call is the last statement of the branch. *)
Definition throttled (now : Z) (this : This) (args : Args) (w : World)
  : World * list Effect :=
  let remaining := remaining_at now (lastCallTime (vars w)) in
  if leading now (lastCallTime (vars w)) then
    let (h, log) := clear_pending w in
    ({| vars := {| timeoutId := None;
                   lastArgs := lastArgs (vars w);
                   lastCallTime := now |};
        host := h |},
     log ++ [Invoke this args])
  else
    match timeoutId (vars w) with
    | None =>
        let (id, h) :=
          setTimeout {| t_delay := remaining; t_set := now;
                        t_this := this; t_args := args |} (host w) in
        ({| vars := {| timeoutId := Some id;
                       lastArgs := Some args;
                       lastCallTime := lastCallTime (vars w) |};
            host := h |},
         [SetTimeout id remaining])
    | Some _ => (w, [])
    end.

(** The body of the timer's arrow function as one step, run while
    [Date.now()] is [now]: the callback of a [func] that makes no call of the
    wrapper or [cancel] from inside it ([callback_enter] and [callback_leave]
    below split it for a [func] that does).  [out] says how [func] ends when
    it is called.  When [func] throws, [lastArgs = null] is not reached. *)
Definition on_timeout (now : Z) (out : Outcome) (cb : Timer) (v : Vars)
  : Vars * list Effect :=
  match lastArgs v with
  | Some a =>
      ({| timeoutId := None;
          lastArgs := match out with Returns => None | Throws => Some a end;
          lastCallTime := now |},
       [Invoke (t_this cb) a])
  | None =>
      ({| timeoutId := None; lastArgs := None; lastCallTime := now |}, [])
  end.

(** [throttled.cancel]. *)
Definition cancel (w : World) : World * list Effect :=
  let (h, log) := clear_pending w in
  ({| vars := {| timeoutId := None; lastArgs := None; lastCallTime := 0 |};
      host := h |},
   log).

(** ** The state machine *)

Inductive Event : Type :=
| Call (now : Z) (this : This) (args : Args)
| Fire (id : positive) (now : Z) (out : Outcome)
| Cancel.

(** The host runs a timer once: it takes the timer out of its table, then
    runs the callback.  A timer that is not in the table cannot fire. *)
Definition fire (id : positive) (now : Z) (out : Outcome) (w : World)
  : option (World * list Effect) :=
  match timers (host w) !! id with
  | Some cb =>
      let (v, log) := on_timeout now out cb (vars w) in
      Some ({| vars := v; host := clearTimeout id (host w) |}, log)
  | None => None
  end.

Definition step (e : Event) (w : World) : option (World * list Effect) :=
  match e with
  | Call now this args => Some (throttled now this args w)
  | Fire id now out => fire id now out w
  | Cancel => Some (cancel w)
  end.

(** A run: the final state and the log of all steps, in order. *)
Fixpoint run (es : list Event) (w : World) : option (World * list Effect) :=
  match es with
  | [] => Some (w, [])
  | e :: es' =>
      match step e w with
      | Some (w1, l1) =>
          match run es' w1 with
          | Some (w2, l2) => Some (w2, l1 ++ l2)
          | None => None
          end
      | None => None
      end
  end.

Definition reachable (w : World) : Prop :=
  ∃ es log, run es init = Some (w, log).

(** The calls of [func] in a log. *)
Fixpoint invocations (log : list Effect) : list (This * Args) :=
  match log with
  | [] => []
  | Invoke this args :: l => (this, args) :: invocations l
  | _ :: l => invocations l
  end.

(** The timers a log schedules. *)
Fixpoint scheduled (log : list Effect) : list positive :=
  match log with
  | [] => []
  | SetTimeout id _ :: l => id :: scheduled l
  | _ :: l => scheduled l
  end.

End Throttle.

Arguments Timer : clear implicits.
Arguments Vars : clear implicits.
Arguments Host : clear implicits.
Arguments World : clear implicits.
Arguments Effect : clear implicits.
Arguments Event : clear implicits.

(** ** Helpers for stating the claims *)

(** A state has a pending timer handle exactly when it has stored
    arguments. *)
Definition pending_iff {This Args} (w : World This Args) : Prop :=
  is_Some (timeoutId (vars w)) ↔ is_Some (lastArgs (vars w)).

(** A wrapper call as data: clock reading, [this], arguments. *)
Definition call_event {This Args} (c : Z * This * Args) : Event This Args :=
  let '(now, this, args) := c in Call now this args.

Definition call_time {This Args} (c : Z * This * Args) : Z := fst (fst c).

Definition call_invoke {This Args} (c : Z * This * Args) : This * Args :=
  (snd (fst c), snd c).

Definition is_fire {This Args} (e : Event This Args) : Prop :=
  match e with Fire _ _ _ => True | _ => False end.

(** The reading of [Date.now()] a step performs, if any. *)
Definition clock_of {This Args} (e : Event This Args) : option Z :=
  match e with
  | Call now _ _ => Some now
  | Fire _ now _ => Some now
  | Cancel => None
  end.

Definition readings {This Args} (es : list (Event This Args)) : list Z :=
  omap clock_of es.

(** The value of [lastCallTime] right after each step of a run that calls
    [func], in order. *)
Fixpoint firing_times {This Args} (wait : Z) (es : list (Event This Args))
    (w : World This Args) : list Z :=
  match es with
  | [] => []
  | e :: es' =>
      match step wait e w with
      | Some (w1, l1) =>
          match invocations l1 with
          | [] => firing_times wait es' w1
          | _ :: _ => lastCallTime (vars w1) :: firing_times wait es' w1
          end
      | None => []
      end
  end.

(** The host runs no timer of the run before it is due. *)
Fixpoint timely {This Args} (wait : Z) (es : list (Event This Args))
    (w : World This Args) : bool :=
  match es with
  | [] => true
  | e :: es' =>
      match step wait e w with
      | Some (w1, _) =>
          match e with
          | Fire id now _ =>
              match timers (host w) !! id with
              | Some cb => t_due cb <=? now
              | None => true
              end
          | _ => true
          end && timely wait es' w1
      | None => true
      end
  end.

(** The steps of the window that follows a firing at [t0]: wrapper calls
    with a clock reading in [t0, t0 + wait), and timer firings. *)
Definition in_window {This Args} (wait t0 : Z) (e : Event This Args) : Prop :=
  match e with
  | Call now _ _ => t0 <= now < t0 + wait
  | Fire _ _ _ => True
  | Cancel => False
  end.

(** ** Further notions: timers, calls and spacing *)

Definition is_cancel {This Args} (e : Event This Args) : Prop :=
  match e with Cancel => True | _ => False end.

(** The timers a log clears. *)
Fixpoint cleared {This Args} (log : list (Effect This Args)) : list positive :=
  match log with
  | [] => []
  | ClearTimeout id :: l => id :: cleared l
  | _ :: l => cleared l
  end.


(** The wrapper calls in a list of steps, as ([this], arguments). *)
Definition calls_of {This Args} (es : list (Event This Args))
  : list (This * Args) :=
  omap (λ e, match e with
             | Call _ this args => Some (this, args)
             | _ => None
             end) es.

(** The call a pending timer stands for, if a timer is pending. *)
Definition pending_call {This Args} (w : World This Args)
  : list (This * Args) :=
  match timeoutId (vars w) with
  | Some id =>
      match timers (host w) !! id with
      | Some cb => [(t_this cb, t_args cb)]
      | None => []
      end
  | None => []
  end.

(** Every timer in the table is due one [wait] after [lastCallTime], and was
    given a delay in (0, wait]. *)
Definition due_after_wait {This Args} (wait : Z) (w : World This Args)
  : Prop :=
  ∀ id cb, timers (host w) !! id = Some cb →
    t_due cb = lastCallTime (vars w) + wait ∧ 0 < t_delay cb <= wait.

(** Successive times at least [wait] apart, the first at least [wait] after
    [last]. *)
Fixpoint spaced_from (wait last : Z) (l : list Z) : Prop :=
  match l with
  | [] => True
  | t :: l' => last + wait <= t ∧ spaced_from wait t l'
  end.

Definition spaced (wait : Z) (l : list Z) : Prop :=
  match l with
  | [] => True
  | t :: l' => spaced_from wait t l'
  end.

(** The same state with other stored arguments. *)
Definition with_lastArgs {This Args} (a : option Args) (w : World This Args)
  : World This Args :=
  {| vars := {| timeoutId := timeoutId (vars w); lastArgs := a;
                lastCallTime := lastCallTime (vars w) |};
     host := host w |}.

(** ** The timer callback in two halves

    For a [func] that calls the wrapper or [cancel] from inside the timer
    callback, the callback is two steps with the calls of [func] in
    between. *)

(** Lines 33 to 36 up to the call of [func]: the variables after them, the
    log, and whether [func] has been called. *)
Definition callback_enter {This Args} (now : Z) (cb : Timer This Args)
    (v : Vars Args) : Vars Args * list (Effect This Args) * bool :=
  match lastArgs v with
  | Some a =>
      ({| timeoutId := None; lastArgs := Some a; lastCallTime := now |},
       [Invoke (t_this cb) a], true)
  | None =>
      ({| timeoutId := None; lastArgs := None; lastCallTime := now |},
       [], false)
  end.

(** The end of the call of [func] on line 36, and line 37 if it returned. *)
Definition callback_leave {Args} (out : Outcome) (v : Vars Args) : Vars Args :=
  match out with
  | Returns =>
      {| timeoutId := timeoutId v; lastArgs := None;
         lastCallTime := lastCallTime v |}
  | Throws => v
  end.

(** The wrapper together with the flag "a timer callback has called [func]
    and [func] has not come back yet". *)
Record Machine (This Args : Type) : Type := mkMachine {
  m_world : World This Args;
  m_running : bool
}.
Arguments mkMachine {This Args}.
Arguments m_world {This Args}.
Arguments m_running {This Args}.

Inductive Move (This Args : Type) : Type :=
| MCall (now : Z) (this : This) (args : Args)
| MCancel
| MEnter (id : positive) (now : Z)
| MLeave (out : Outcome).
Arguments MCall {This Args}.
Arguments MCancel {This Args}.
Arguments MEnter {This Args}.
Arguments MLeave {This Args}.

(** One move.  The wrapper and [cancel] can be called at any time, from the
    event loop or by [func]; the host starts a timer callback only while no
    callback is running; [MLeave] ends the running callback. *)
Definition move {This Args} (wait : Z) (mv : Move This Args)
    (m : Machine This Args)
  : option (Machine This Args * list (Effect This Args)) :=
  match mv with
  | MCall now this args =>
      let (w, log) := throttled wait now this args (m_world m) in
      Some ({| m_world := w; m_running := m_running m |}, log)
  | MCancel =>
      let (w, log) := cancel (m_world m) in
      Some ({| m_world := w; m_running := m_running m |}, log)
  | MEnter id now =>
      if m_running m then None
      else
        match timers (host (m_world m)) !! id with
        | Some cb =>
            let '(v, log, called) :=
              callback_enter now cb (vars (m_world m)) in
            Some ({| m_world :=
                       {| vars := v;
                          host := clearTimeout id (host (m_world m)) |};
                     m_running := called |}, log)
        | None => None
        end
  | MLeave out =>
      if m_running m then
        Some ({| m_world :=
                   {| vars := callback_leave out (vars (m_world m));
                      host := host (m_world m) |};
                 m_running := false |}, [])
      else None
  end.

Fixpoint play {This Args} (wait : Z) (mvs : list (Move This Args))
    (m : Machine This Args)
  : option (Machine This Args * list (Effect This Args)) :=
  match mvs with
  | [] => Some (m, [])
  | mv :: mvs' =>
      match move wait mv m with
      | Some (m1, l1) =>
          match play wait mvs' m1 with
          | Some (m2, l2) => Some (m2, l1 ++ l2)
          | None => None
          end
      | None => None
      end
  end.

Definition start {This Args} : Machine This Args :=
  {| m_world := init; m_running := false |}.

Definition playable {This Args} (wait : Z) (m : Machine This Args) : Prop :=
  ∃ mvs log, play wait mvs start = Some (m, log).

(** No call of the wrapper is made while a timer callback is running. *)
Fixpoint tame {This Args} (wait : Z) (mvs : list (Move This Args))
    (m : Machine This Args) : bool :=
  match mvs with
  | [] => true
  | mv :: mvs' =>
      match move wait mv m with
      | Some (m1, _) =>
          match mv with
          | MCall _ _ _ => negb (m_running m)
          | _ => true
          end && tame wait mvs' m1
      | None => true
      end
  end.

Definition is_mcancel {This Args} (mv : Move This Args) : Prop :=
  match mv with MCancel => True | _ => False end.

(** The clock readings of the leading-edge calls and of the timer callbacks
    of a run, in order: the moves that write [lastCallTime = now]. *)
Fixpoint stamps {This Args} (wait : Z) (mvs : list (Move This Args))
    (m : Machine This Args) : list Z :=
  match mvs with
  | [] => []
  | mv :: mvs' =>
      match move wait mv m with
      | Some (m1, _) =>
          match mv with
          | MCall now _ _ =>
              if leading wait now (lastCallTime (vars (m_world m)))
              then now :: stamps wait mvs' m1
              else stamps wait mvs' m1
          | MEnter _ now => now :: stamps wait mvs' m1
          | _ => stamps wait mvs' m1
          end
      | None => []
      end
  end.

(** The timer handle is set exactly when the host holds that one timer. *)
Definition handle_matches_table {This Args} (w : World This Args) : Prop :=
  match timeoutId (vars w) with
  | None => timers (host w) = ∅
  | Some id =>
      ∃ cb, timers (host w) = {[ id := cb ]} ∧
            (id < nextId (host w))%positive
  end.

(** ** A concrete wrapper

    [wait = 100], [this] of type [unit], one string as argument list.
    [w_pending] is the state after a first call at clock reading 1000 and a
    second call at 1030: [func] ran at 1000, and the timer of the second
    call is pending, due at 1100. *)
Definition w_fired : World unit string :=
  {| vars := {| timeoutId := None; lastArgs := None; lastCallTime := 1000 |};
     host := {| timers := ∅; nextId := 1 |} |}.

Definition w_pending : World unit string :=
  {| vars := {| timeoutId := Some 1%positive; lastArgs := Some "b"%string;
                lastCallTime := 1000 |};
     host := {| timers := {[ 1%positive :=
                               {| t_delay := 70; t_set := 1030;
                                  t_this := tt; t_args := "b"%string |} ]};
                nextId := 2 |} |}.

(** A run in the manner of the specification's scenario, on a clock that
    starts at 1000 and with the last call 150 ms after the timer has run. *)
Definition scenario : list (Event unit string) :=
  [Call 1000 tt "a"%string; Call 1030 tt "b"%string; Call 1060 tt "c"%string;
   Fire 1 1100 Returns; Call 1250 tt "d"%string].

(** The moves of a [func] that calls the wrapper from inside the timer
    callback: calls at 1000 and 1030, the timer of the second call runs at
    1100, and [func], called with "b", calls the wrapper with "c" before it
    returns.  [m_wiped] is the state these moves end in. *)
Definition nested_call : list (Move unit string) :=
  [MCall 1000 tt "a"%string; MCall 1030 tt "b"%string; MEnter 1 1100;
   MCall 1100 tt "c"%string; MLeave Returns].

Definition m_wiped : Machine unit string :=
  {| m_world :=
       {| vars := {| timeoutId := Some 2%positive; lastArgs := None;
                     lastCallTime := 1100 |};
          host := {| timers := {[ 2%positive :=
                                    {| t_delay := 100; t_set := 1100;
                                       t_this := tt;
                                       t_args := "c"%string |} ]};
                     nextId := 3 |} |};
     m_running := false |}.

(** ** The invariant of the reachable states *)

(** Either no timer is pending and the host's table is empty, or the table
    holds exactly the timer [timeoutId] names, [lastArgs] holds the arguments
    of the call that created it, and the host has already handed out its
    id. *)
Definition Inv {This Args} (w : World This Args) : Prop :=
  match timeoutId (vars w) with
  | None => timers (host w) = ∅
  | Some id =>
      ∃ cb, timers (host w) = {[ id := cb ]} ∧
            lastArgs (vars w) = Some (t_args cb) ∧
            (id < nextId (host w))%positive
  end.

Section Proofs.

Context {This Args : Type}.
Variable wait : Z.

Implicit Types (w : World This Args) (e : Event This Args)
  (es : list (Event This Args)) (log : list (Effect This Args))
  (cb : Timer This Args) (id : positive).

(** *** Logs *)

Lemma invocations_app log1 log2 :
  invocations (log1 ++ log2) = invocations log1 ++ invocations log2.
Proof.
  induction log1 as [|[] log1 IH]; simpl; [done|by f_equal|done|done].
Qed.

Lemma scheduled_app log1 log2 :
  scheduled (log1 ++ log2) = scheduled log1 ++ scheduled log2.
Proof.
  induction log1 as [|[] log1 IH]; simpl; [done|done|by f_equal|done].
Qed.

(** *** Runs *)

Lemma run_cons e es w w' log :
  run wait (e :: es) w = Some (w', log) ↔
  ∃ w1 l1 l2, step wait e w = Some (w1, l1) ∧
              run wait es w1 = Some (w', l2) ∧ log = l1 ++ l2.
Proof.
  simpl. split.
  - destruct (step wait e w) as [[w1 l1]|]; [|done].
    destruct (run wait es w1) as [[w2 l2]|] eqn:Hr; [|done].
    intros [= <- <-]. by exists w1, l1, l2.
  - intros (w1 & l1 & l2 & -> & -> & ->). done.
Qed.

Lemma run_app es1 es2 w w' log :
  run wait (es1 ++ es2) w = Some (w', log) ↔
  ∃ w1 l1 l2, run wait es1 w = Some (w1, l1) ∧
              run wait es2 w1 = Some (w', l2) ∧ log = l1 ++ l2.
Proof.
  revert w log. induction es1 as [|e es1 IH]; intros w log.
  - simpl. split.
    + intros H. by exists w, [], log.
    + intros (w1 & l1 & l2 & [= <- <-] & H & ->). done.
  - rewrite <- app_comm_cons, run_cons. split.
    + intros (w1 & l1 & l2 & Hs & Hr & ->).
      apply IH in Hr as (w2 & l3 & l4 & Hr1 & Hr2 & ->).
      exists w2, (l1 ++ l3), l4. split; [|split; [done|by rewrite app_assoc]].
      apply run_cons. by exists w1, l1, l3.
    + intros (w2 & l & l4 & Hr1 & Hr2 & ->).
      apply run_cons in Hr1 as (w1 & l1 & l3 & Hs & Hr1 & ->).
      exists w1, l1, (l3 ++ l4). split; [done|]. split; [|by rewrite app_assoc].
      apply IH. by exists w2, l3, l4.
Qed.

Lemma reachable_init : reachable wait (init : World This Args).
Proof. by exists [], []. Qed.

Lemma reachable_run es w w' log :
  reachable wait w → run wait es w = Some (w', log) → reachable wait w'.
Proof.
  intros (es0 & log0 & H0) H. exists (es0 ++ es), (log0 ++ log).
  apply run_app. by exists w, log0, log.
Qed.

Lemma reachable_step e w w' log :
  reachable wait w → step wait e w = Some (w', log) → reachable wait w'.
Proof.
  intros Hw Hs. apply (reachable_run [e] w w' log Hw).
  simpl. rewrite Hs. by rewrite app_nil_r.
Qed.

(** *** The branches of the wrapper *)

Lemma leading_true now last :
  leading wait now last = true ↔
  remaining_at wait now last <= 0 ∨ wait < remaining_at wait now last.
Proof. unfold leading. rewrite orb_true_iff, Z.leb_le, Z.ltb_lt. done. Qed.

Lemma leading_false now last :
  leading wait now last = false ↔
  0 < remaining_at wait now last <= wait.
Proof.
  unfold leading. rewrite orb_false_iff, Z.leb_gt, Z.ltb_ge. done.
Qed.

Lemma throttled_leading now this args w :
  leading wait now (lastCallTime (vars w)) = true →
  throttled wait now this args w =
    ({| vars := {| timeoutId := None; lastArgs := lastArgs (vars w);
                   lastCallTime := now |};
        host := fst (clear_pending w) |},
     snd (clear_pending w) ++ [Invoke this args]).
Proof.
  intros H. unfold throttled. rewrite H. by destruct (clear_pending w).
Qed.

Lemma throttled_deferred now this args w :
  leading wait now (lastCallTime (vars w)) = false →
  timeoutId (vars w) = None →
  throttled wait now this args w =
    ({| vars := {| timeoutId := Some (nextId (host w));
                   lastArgs := Some args;
                   lastCallTime := lastCallTime (vars w) |};
        host := {| timers :=
                     <[nextId (host w) :=
                         {| t_delay := remaining_at wait now
                                         (lastCallTime (vars w));
                            t_set := now; t_this := this;
                            t_args := args |}]> (timers (host w));
                   nextId := Pos.succ (nextId (host w)) |} |},
     [SetTimeout (nextId (host w))
        (remaining_at wait now (lastCallTime (vars w)))]).
Proof. intros H1 H2. unfold throttled. by rewrite H1, H2. Qed.

Lemma throttled_suppressed now this args w id :
  leading wait now (lastCallTime (vars w)) = false →
  timeoutId (vars w) = Some id →
  throttled wait now this args w = (w, []).
Proof. intros H1 H2. unfold throttled. by rewrite H1, H2. Qed.

(** *** The invariant *)

Lemma Inv_init : Inv (init : World This Args).
Proof. done. Qed.

Lemma clear_pending_empty w :
  Inv w → timers (fst (clear_pending w)) = ∅.
Proof.
  unfold Inv, clear_pending. destruct (timeoutId (vars w)) as [id|]; [|done].
  intros (cb & Ht & _). simpl. rewrite Ht. apply delete_singleton_eq.
Qed.

Lemma clear_pending_nextId w :
  nextId (fst (clear_pending w)) = nextId (host w).
Proof. unfold clear_pending. by destruct (timeoutId (vars w)). Qed.

Lemma clear_pending_invocations w : invocations (snd (clear_pending w)) = [].
Proof. unfold clear_pending. by destruct (timeoutId (vars w)). Qed.

Lemma clear_pending_scheduled w : scheduled (snd (clear_pending w)) = [].
Proof. unfold clear_pending. by destruct (timeoutId (vars w)). Qed.

Lemma Inv_throttled now this args w :
  Inv w → Inv (fst (throttled wait now this args w)).
Proof.
  intros HI.
  destruct (leading wait now (lastCallTime (vars w))) eqn:Hl.
  - rewrite throttled_leading by done. unfold Inv; simpl.
    by apply clear_pending_empty.
  - destruct (timeoutId (vars w)) as [id|] eqn:Ht.
    + by rewrite (throttled_suppressed _ _ _ _ id).
    + rewrite throttled_deferred by done. unfold Inv in *; simpl.
      rewrite Ht in HI. rewrite HI, insert_empty. eexists. split; [done|].
      split; [done|lia].
Qed.

Lemma cancel_eq w :
  cancel w = ({| vars := init_vars; host := fst (clear_pending w) |},
              snd (clear_pending w)).
Proof. unfold cancel. by destruct (clear_pending w). Qed.

Lemma Inv_cancel w : Inv w → Inv (fst (cancel w)).
Proof.
  intros HI. unfold cancel.
  pose proof (clear_pending_empty w HI) as H.
  destruct (clear_pending w) as [h l]. done.
Qed.

Lemma fire_inv id now out w w' log :
  fire id now out w = Some (w', log) →
  ∃ cb, timers (host w) !! id = Some cb ∧
        w' = {| vars := fst (on_timeout now out cb (vars w));
                host := clearTimeout id (host w) |} ∧
        log = snd (on_timeout now out cb (vars w)).
Proof.
  unfold fire. destruct (timers (host w) !! id) as [cb|] eqn:Hl; [|done].
  destruct (on_timeout now out cb (vars w)) as [v l] eqn:Ho.
  intros [= <- <-]. exists cb. by rewrite Ho.
Qed.

Lemma on_timeout_timeoutId now out cb (v : Vars Args) :
  timeoutId (fst (on_timeout now out cb v)) = None.
Proof. unfold on_timeout. by destruct (lastArgs v). Qed.

Lemma Inv_lookup w id cb :
  Inv w → timers (host w) !! id = Some cb →
  timeoutId (vars w) = Some id ∧ timers (host w) = {[ id := cb ]} ∧
  lastArgs (vars w) = Some (t_args cb) ∧ (id < nextId (host w))%positive.
Proof.
  unfold Inv. destruct (timeoutId (vars w)) as [id'|].
  - intros (cb' & Ht & Ha & Hn) Hl. rewrite Ht in Hl.
    apply lookup_singleton_Some in Hl as [-> ->]. done.
  - intros -> Hl. by rewrite lookup_empty in Hl.
Qed.

Lemma Inv_fire id now out w w' log :
  Inv w → fire id now out w = Some (w', log) → Inv w'.
Proof.
  intros HI Hf. apply fire_inv in Hf as (cb & Hl & -> & _).
  apply (Inv_lookup w id cb HI) in Hl as (_ & Ht & _).
  unfold Inv; simpl. rewrite on_timeout_timeoutId, Ht.
  apply delete_singleton_eq.
Qed.

Lemma Inv_step e w w' log :
  Inv w → step wait e w = Some (w', log) → Inv w'.
Proof.
  intros HI. destruct e as [now this args|id now out|]; simpl.
  - intros [= H]. pose proof (Inv_throttled now this args w HI) as HI'.
    by rewrite H in HI'.
  - by apply Inv_fire.
  - intros [= H]. pose proof (Inv_cancel w HI) as HI'. by rewrite H in HI'.
Qed.

Lemma Inv_run es w w' log :
  Inv w → run wait es w = Some (w', log) → Inv w'.
Proof.
  revert w log. induction es as [|e es IH]; intros w log HI.
  - by intros [= <- _].
  - intros (w1 & l1 & l2 & Hs & Hr & _)%run_cons.
    eapply IH; [|done]. by eapply Inv_step.
Qed.

Lemma reachable_Inv w : reachable wait w → Inv w.
Proof. intros (es & log & H). eapply Inv_run; [apply Inv_init|done]. Qed.

(** *** Timer ids are never handed out twice *)

Lemma clear_pending_lookup w id cb :
  timers (fst (clear_pending w)) !! id = Some cb →
  timers (host w) !! id = Some cb.
Proof.
  unfold clear_pending. destruct (timeoutId (vars w)) as [id'|]; [|done].
  simpl. by intros [_ ?]%lookup_delete_Some.
Qed.

Lemma step_nextId e w w' log :
  step wait e w = Some (w', log) →
  (nextId (host w) ≤ nextId (host w'))%positive.
Proof.
  destruct e as [now this args|id' now out|]; simpl.
  - intros [= H].
    destruct (leading wait now (lastCallTime (vars w))) eqn:Hl.
    + rewrite throttled_leading in H by done. injection H as <- _.
      simpl. rewrite clear_pending_nextId. lia.
    + destruct (timeoutId (vars w)) as [id'|] eqn:Ht.
      * rewrite (throttled_suppressed _ _ _ _ id') in H by done.
        injection H as <- _. lia.
      * rewrite throttled_deferred in H by done. injection H as <- _.
        simpl. lia.
  - intros (cb' & _ & -> & _)%fire_inv. simpl. lia.
  - intros [= H]. unfold cancel in H.
    pose proof (clear_pending_nextId w) as Hn.
    destruct (clear_pending w) as [h l]. injection H as <- _.
    simpl in *. lia.
Qed.

(** A step adds a timer under the next free id only: a timer found
    afterwards under an older id was there before. *)
Lemma step_old_timers e w w' log id cb :
  step wait e w = Some (w', log) →
  (id < nextId (host w))%positive →
  timers (host w') !! id = Some cb →
  timers (host w) !! id = Some cb.
Proof.
  destruct e as [now this args|id' now out|]; simpl.
  - intros [= H] Hid.
    destruct (leading wait now (lastCallTime (vars w))) eqn:Hl.
    + rewrite throttled_leading in H by done. injection H as <- _. simpl.
      apply clear_pending_lookup.
    + destruct (timeoutId (vars w)) as [id'|] eqn:Ht.
      * rewrite (throttled_suppressed _ _ _ _ id') in H by done.
        by injection H as <- _.
      * rewrite throttled_deferred in H by done. injection H as <- _. simpl.
        by rewrite lookup_insert_ne by lia.
  - intros (cb' & _ & -> & _)%fire_inv Hid. simpl.
    by intros [_ ?]%lookup_delete_Some.
  - intros [= H] Hid. unfold cancel in H.
    pose proof (clear_pending_lookup w id cb) as Hc.
    destruct (clear_pending w) as [h l]. by injection H as <- _.
Qed.

Lemma run_old_timers es w w' log id cb :
  run wait es w = Some (w', log) →
  (id < nextId (host w))%positive →
  timers (host w') !! id = Some cb →
  timers (host w) !! id = Some cb.
Proof.
  revert w log. induction es as [|e es IH]; intros w log.
  - by intros [= <- _].
  - intros (w1 & l1 & l2 & Hs & Hr & _)%run_cons Hid Hl.
    pose proof (step_nextId e w w1 l1 Hs) as Hn.
    eapply step_old_timers; [done|done|].
    eapply IH; [done|lia|done].
Qed.

(** *** Firing a timer *)

Lemma fire_pending w id cb now out :
  Inv w → timers (host w) !! id = Some cb →
  fire id now out w =
    Some ({| vars := {| timeoutId := None;
                        lastArgs := match out with
                                    | Returns => None
                                    | Throws => Some (t_args cb)
                                    end;
                        lastCallTime := now |};
             host := {| timers := ∅; nextId := nextId (host w) |} |},
          [Invoke (t_this cb) (t_args cb)]).
Proof.
  intros HI Hl. destruct (Inv_lookup w id cb HI Hl) as (_ & Ht & Ha & _).
  unfold fire, on_timeout, clearTimeout. rewrite Hl, Ha, Ht.
  by rewrite delete_singleton_eq.
Qed.


(** Each pending timer accounts for at most one call of [func]. *)
Lemma fires_bounded fires w w' log :
  Inv w → Forall is_fire fires →
  run wait fires w = Some (w', log) →
  (length (invocations log) ≤ size (timers (host w)))%nat.
Proof.
  revert w log. induction fires as [|e fires IH]; intros w log HI Hf.
  - intros [= _ <-]. simpl. lia.
  - intros (w1 & l1 & l2 & Hs & Hr & ->)%run_cons.
    apply Forall_cons in Hf as [He Hf].
    destruct e as [|id now out|]; [done| |done]. simpl in Hs.
    pose proof Hs as (cb & Hl & _)%fire_inv.
    destruct (Inv_lookup w id cb HI Hl) as (_ & Ht & _).
    rewrite (fire_pending w id cb now out HI Hl) in Hs.
    injection Hs as <- <-.
    eapply IH in Hr; [|done|done]. simpl in Hr.
    rewrite map_size_empty in Hr. rewrite Ht, map_size_singleton.
    rewrite invocations_app. simpl. lia.
Qed.

(** While a timer is pending, calls inside the window of the last firing
    change nothing. *)
Lemma run_suppressed calls w id :
  timeoutId (vars w) = Some id →
  Forall (λ c, lastCallTime (vars w) <= call_time c
               < lastCallTime (vars w) + wait) calls →
  run wait (map call_event calls) w = Some (w, []).
Proof.
  intros Ht. induction calls as [|[[now this] args] calls IH]; [done|].
  intros [Hc Hf]%Forall_cons. simpl.
  rewrite (throttled_suppressed _ _ _ _ id); [|apply leading_false|done].
  - by rewrite IH.
  - unfold remaining_at, call_time in *. simpl in Hc. lia.
Qed.

(** With an empty table and no new timer, nothing can fire. *)
Lemma run_no_timer es w w' log :
  Inv w → timers (host w) = ∅ →
  run wait es w = Some (w', log) → scheduled log = [] →
  timers (host w') = ∅ ∧ Forall (λ e, ¬ is_fire e) es.
Proof.
  revert w log. induction es as [|e es IH]; intros w log HI He.
  - intros [= <- _] _. by split.
  - intros (w1 & l1 & l2 & Hs & Hr & ->)%run_cons.
    rewrite scheduled_app. intros [H1 H2]%app_eq_nil.
    assert (timers (host w1) = ∅ ∧ ¬ is_fire e) as [He1 Hne].
    { assert (timeoutId (vars w) = None) as Ht.
      { unfold Inv in HI. destruct (timeoutId (vars w)) as [id|]; [|done].
        destruct HI as (cb & Hc & _). rewrite He in Hc.
        apply (f_equal (λ m, m !! id)) in Hc.
        by rewrite lookup_empty, lookup_singleton_eq in Hc. }
      destruct e as [now this args|id now out|]; simpl in Hs.
      - injection Hs as Hs.
        destruct (leading wait now (lastCallTime (vars w))) eqn:Hl.
        + rewrite throttled_leading in Hs by done. injection Hs as <- _.
          simpl. split; [|tauto]. unfold clear_pending. by rewrite Ht.
        + rewrite throttled_deferred in Hs by done. injection Hs as _ <-.
          done.
      - unfold fire in Hs. by rewrite He, lookup_empty in Hs.
      - injection Hs as Hs. unfold cancel, clear_pending in Hs.
        rewrite Ht in Hs. injection Hs as <- _. split; [done|tauto]. }
    destruct (IH w1 l2) as [? ?]; [by eapply Inv_step|done|done|done|].
    split; [done|]. by constructor.
Qed.

(** ** The claims *)

(** C2 (as amended).  When [lastCallTime] is 0 (a fresh wrapper, or the state
    [cancel()] leaves, whatever the time of the last firing) and the clock
    reading satisfies [wait <= now] or [now < 0], the call takes the
    leading-edge branch: [func] is called exactly once within the call, with
    the [this] and the arguments of that call, and no timer is scheduled. *)
Theorem never_called_takes_leading_edge now this args w :
  wait <= now ∨ now < 0 →
  w = init ∨ (∃ w0, w = fst (cancel w0)) ∨ lastCallTime (vars w) = 0 →
  leading wait now (lastCallTime (vars w)) = true ∧
  invocations (snd (throttled wait now this args w)) = [(this, args)] ∧
  scheduled (snd (throttled wait now this args w)) = [] ∧
  lastCallTime (vars (fst (throttled wait now this args w))) = now.
Proof.
  intros Hnow Hw.
  assert (lastCallTime (vars w) = 0) as H0.
  { destruct Hw as [->|[[w0 ->]|?]]; [done| |done].
    unfold cancel. by destruct (clear_pending w0). }
  assert (leading wait now (lastCallTime (vars w)) = true) as Hl.
  { apply leading_true. rewrite H0. unfold remaining_at. lia. }
  split; [done|]. rewrite throttled_leading by done. simpl.
  rewrite invocations_app, scheduled_app.
  by rewrite clear_pending_invocations, clear_pending_scheduled.
Qed.

(** With [lastCallTime] at 0 and a clock reading in [0, wait), the call is
    not a leading-edge call: [func] is not called within it. *)
Lemma never_called_inside_window now this args w :
  lastCallTime (vars w) = 0 → 0 <= now < wait →
  leading wait now (lastCallTime (vars w)) = false ∧
  invocations (snd (throttled wait now this args w)) = [].
Proof.
  intros H0 Hnow.
  assert (leading wait now (lastCallTime (vars w)) = false) as Hl.
  { apply leading_false. rewrite H0. unfold remaining_at. lia. }
  split; [done|]. destruct (timeoutId (vars w)) as [id|] eqn:Ht.
  - by rewrite (throttled_suppressed _ _ _ _ id).
  - by rewrite throttled_deferred.
Qed.


(** C4 (as amended).  A call that arrives while [0 < remaining <= wait] and a
    timer is pending is a no-op: the state is the same afterwards, stored
    arguments included, and the log is empty, so [func] is not called and no
    timer is scheduled or cancelled. *)
Theorem call_with_timer_pending_is_dropped w now this args id :
  0 < remaining_at wait now (lastCallTime (vars w)) <= wait →
  timeoutId (vars w) = Some id →
  throttled wait now this args w = (w, []).
Proof.
  intros Hr%leading_false Ht. by apply (throttled_suppressed _ _ _ _ id).
Qed.

(** *** One window

    The three phases of the window after a firing at [t0], on a clock that
    does not go back and a host that runs no timer early: no timer yet, the
    timer pending, the timer fired. *)

Lemma window_closed t0 es w w' log :
  timers (host w) = ∅ →
  Forall (in_window wait t0) es →
  Forall (λ r, t0 + wait <= r) (readings es) →
  run wait es w = Some (w', log) → log = [].
Proof.
  intros He Hw Hr. destruct es as [|e es]; [by intros [= _ <-]|].
  apply Forall_cons in Hw as [Hw _].
  destruct e as [now this args|id now out|]; [| |done].
  - unfold readings in Hr; simpl in Hr. apply Forall_cons in Hr as [Hr _].
    simpl in Hw. lia.
  - simpl. unfold fire. by rewrite He, lookup_empty.
Qed.

Lemma window_pending t0 es w w' log id cb :
  Inv w → timers (host w) !! id = Some cb →
  t_due cb = t0 + wait → lastCallTime (vars w) = t0 →
  Forall (in_window wait t0) es →
  StronglySorted Z.le (readings es) →
  timely wait es w = true →
  run wait es w = Some (w', log) →
  (length (invocations log) ≤ 1)%nat.
Proof.
  intros HI Hl Hdue Hlast. revert log.
  destruct (Inv_lookup w id cb HI Hl) as (Ht & _).
  induction es as [|e es IH]; intros log Hw Hs Htm.
  - intros [= _ <-]. simpl. lia.
  - intros (w1 & l1 & l2 & Hstep & Hrun & ->)%run_cons.
    apply Forall_cons in Hw as [He Hw].
    simpl in Htm. rewrite Hstep in Htm.
    apply andb_true_iff in Htm as [Hnow Htm].
    destruct e as [now this args|id' now out|]; [| |done].
    + simpl in Hstep, He. unfold readings in Hs; simpl in Hs.
      apply StronglySorted_cons in Hs as [_ Hs].
      rewrite (throttled_suppressed _ _ _ _ id) in Hstep;
        [|apply leading_false; unfold remaining_at; lia|done].
      injection Hstep as <- <-. by apply IH.
    + simpl in Hstep. pose proof Hstep as (cb' & Hl' & _)%fire_inv.
      destruct (Inv_lookup w id' cb' HI Hl') as (Ht' & _).
      assert (id' = id) as -> by congruence.
      assert (cb' = cb) as -> by congruence.
      rewrite Hl in Hnow. apply Z.leb_le in Hnow.
      rewrite (fire_pending w id cb now out HI Hl) in Hstep.
      injection Hstep as <- <-.
      unfold readings in Hs; simpl in Hs.
      apply StronglySorted_cons in Hs as [Hge _].
      eapply (window_closed t0) in Hrun as ->; [simpl; lia|done|done|].
      eapply Forall_impl; [exact Hge|]. simpl. intros r Hr. lia.
Qed.

Lemma window_open t0 es w w' log :
  Inv w → timeoutId (vars w) = None → lastCallTime (vars w) = t0 →
  Forall (in_window wait t0) es →
  StronglySorted Z.le (readings es) →
  timely wait es w = true →
  run wait es w = Some (w', log) →
  (length (invocations log) ≤ 1)%nat.
Proof.
  intros HI Ht Hlast Hw Hs Htm.
  destruct es as [|e es]; [intros [= _ <-]; simpl; lia|].
  intros (w1 & l1 & l2 & Hstep & Hrun & ->)%run_cons.
  apply Forall_cons in Hw as [He Hw].
  simpl in Htm. rewrite Hstep in Htm.
  apply andb_true_iff in Htm as [_ Htm].
  assert (timers (host w) = ∅) as Hempty
    by (unfold Inv in HI; by rewrite Ht in HI).
  destruct e as [now this args|id' now out|]; [| |done].
  - simpl in Hstep, He. unfold readings in Hs; simpl in Hs.
    apply StronglySorted_cons in Hs as [_ Hs].
    pose proof (Inv_throttled now this args w HI) as HI1.
    rewrite throttled_deferred in Hstep, HI1;
      [|apply leading_false; unfold remaining_at; lia|done
       |apply leading_false; unfold remaining_at; lia|done].
    injection Hstep as <- <-. simpl in HI1 |- *.
    eapply (window_pending t0) in Hrun;
      [done|done|simpl; apply lookup_insert_eq| |done|done|done|done].
    unfold t_due, remaining_at. simpl. lia.
  - simpl in Hstep. unfold fire in Hstep.
    by rewrite Hempty, lookup_empty in Hstep.
Qed.

(** C5.  In a reachable state the host holds at most one timer.  After a
    leading-edge firing at [t0], one or more calls with clock readings in
    [t0, t0 + wait) run without calling [func] and leave exactly one timer,
    due at [t0 + wait] and carrying the first of these calls; with the
    firings that can follow, [func] has been called at most twice.  More
    generally, when the firing at [t0] is followed by calls with readings in
    [t0, t0 + wait) and timer firings in any order, on a clock that does not
    go back and with no timer run before it is due, [func] is called at most
    twice in the whole run. *)
Theorem at_most_one_deferred_invocation w :
  reachable wait w →
  (size (timers (host w)) ≤ 1)%nat ∧
  ∀ t0 this0 args0,
    leading wait t0 (lastCallTime (vars w)) = true →
    (∀ c calls,
       Forall (λ c, t0 <= call_time c < t0 + wait) (c :: calls) →
       ∃ w1 log1 id cb,
         run wait (Call t0 this0 args0 :: map call_event (c :: calls)) w
           = Some (w1, log1) ∧
         invocations log1 = [(this0, args0)] ∧
         timers (host w1) = {[ id := cb ]} ∧ t_due cb = t0 + wait ∧
         (t_this cb, t_args cb) = call_invoke c ∧
         ∀ fires w2 log2,
           Forall is_fire fires →
           run wait fires w1 = Some (w2, log2) →
           (length (invocations (log1 ++ log2)) ≤ 2)%nat) ∧
    (∀ es w' log,
       Forall (in_window wait t0) es →
       StronglySorted Z.le (readings es) →
       timely wait es (fst (throttled wait t0 this0 args0 w)) = true →
       run wait (Call t0 this0 args0 :: es) w = Some (w', log) →
       (length (invocations log) ≤ 2)%nat).
Proof.
  intros HI%reachable_Inv. split.
  { unfold Inv in HI. destruct (timeoutId (vars w)) as [id|].
    - destruct HI as (cb & -> & _). by rewrite map_size_singleton.
    - rewrite HI, map_size_empty. lia. }
  intros t0 this0 args0 Hl.
  set (w0 := fst (throttled wait t0 this0 args0 w)).
  pose proof (Inv_throttled t0 this0 args0 w HI) as HI0. fold w0 in HI0.
  assert (throttled wait t0 this0 args0 w =
            (w0, snd (clear_pending w) ++ [Invoke this0 args0]) ∧
          timeoutId (vars w0) = None ∧ lastCallTime (vars w0) = t0 ∧
          timers (host w0) = ∅) as (Hw0 & Ht0 & Hc0 & He0).
  { subst w0. rewrite throttled_leading by done. simpl.
    by rewrite clear_pending_empty. }
  split; cycle 1.
  { intros es w' log Hw Hs Htm (w1 & l1 & l2 & Hstep & Hrun & ->)%run_cons.
    simpl in Hstep. rewrite Hw0 in Hstep. injection Hstep as <- <-.
    pose proof (window_open t0 es w0 w' l2 HI0 Ht0 Hc0 Hw Hs Htm Hrun).
    rewrite !invocations_app, clear_pending_invocations, !length_app.
    simpl. lia. }
  intros [[now this] args] calls [Hc Hcs]%Forall_cons.
  unfold call_time in Hc; simpl in Hc.
  set (w1 := fst (throttled wait now this args w0)).
  pose proof (Inv_throttled now this args w0 HI0) as HI1. fold w1 in HI1.
  assert (leading wait now (lastCallTime (vars w0)) = false) as Hl0.
  { apply leading_false. rewrite Hc0. unfold remaining_at. lia. }
  pose proof (throttled_deferred now this args w0 Hl0 Ht0) as Hd.
  rewrite He0, insert_empty, Hc0 in Hd.
  set (id := nextId (host w0)) in *.
  set (cb := {| t_delay := remaining_at wait now t0; t_set := now;
                t_this := this; t_args := args |}) in *.
  assert (timeoutId (vars w1) = Some id ∧ lastCallTime (vars w1) = t0 ∧
          timers (host w1) = {[ id := cb ]} ∧
          throttled wait now this args w0 =
            (w1, [SetTimeout id (remaining_at wait now t0)]))
    as (Ht1 & Hc1 & He1 & Hw1).
  { subst w1. by rewrite Hd. }
  assert (run wait (map call_event calls) w1 = Some (w1, [])) as Hsup.
  { apply (run_suppressed calls w1 id Ht1). by rewrite Hc1. }
  exists w1, ((snd (clear_pending w) ++ [Invoke this0 args0]) ++
              [SetTimeout id (remaining_at wait now t0)] ++ []), id, cb.
  split.
  { apply run_cons. eexists _, _, _. split; [simpl; by rewrite Hw0|].
    split; [|done]. apply run_cons. eexists _, _, _.
    split; [simpl; by rewrite Hw1|]. by split. }
  rewrite !invocations_app, clear_pending_invocations. simpl.
  split; [done|]. split; [done|].
  split; [unfold t_due, cb, remaining_at; simpl; lia|]. split; [done|].
  intros fires w2 log2 Hf Hr.
  pose proof (fires_bounded fires w1 w2 log2 HI1 Hf Hr) as Hb.
  rewrite He1, map_size_singleton in Hb.
  rewrite !invocations_app, clear_pending_invocations. simpl. lia.
Qed.

(** C6.  When a timer is pending, [cancel()] clears it without calling
    [func] and leaves the host's table empty.  In every run that follows, the
    cancelled timer cannot fire; and as long as no call has scheduled a new
    timer, no timer fires at all. *)
Theorem cancelled_timer_never_fires w id :
  reachable wait w → timeoutId (vars w) = Some id →
  snd (cancel w) = [ClearTimeout id] ∧
  timers (host (fst (cancel w))) = ∅ ∧
  ∀ es w2 log2,
    run wait es (fst (cancel w)) = Some (w2, log2) →
    (∀ now out, fire id now out w2 = None) ∧
    (scheduled log2 = [] →
     Forall (λ e, ¬ is_fire e) es ∧ timers (host w2) = ∅).
Proof.
  intros HI%reachable_Inv Ht.
  pose proof (Inv_cancel w HI) as HIc.
  pose proof (clear_pending_empty w HI) as He.
  pose proof (clear_pending_nextId w) as Hn.
  assert (id < nextId (host w))%positive as Hid.
  { unfold Inv in HI. rewrite Ht in HI. by destruct HI as (cb & _ & _ & ?). }
  assert (cancel w = ({| vars := init_vars; host := fst (clear_pending w) |},
                      [ClearTimeout id])) as Hc.
  { unfold cancel, clear_pending. by rewrite Ht. }
  rewrite Hc in *. simpl in *. split; [done|]. split; [done|].
  intros es w2 log2 Hr. split.
  - intros now out. unfold fire.
    destruct (timers (host w2) !! id) as [cb|] eqn:Hl; [|done].
    eapply run_old_timers in Hl; [|done|simpl; by rewrite Hn].
    simpl in Hl. by rewrite He, lookup_empty in Hl.
  - intros Hs. by destruct (run_no_timer es _ w2 log2 HIc He Hr Hs).
Qed.

(** *** The times of the firings *)

Lemma step_invokes_at_reading e w w' log :
  step wait e w = Some (w', log) → invocations log ≠ [] →
  clock_of e = Some (lastCallTime (vars w')).
Proof.
  destruct e as [now this args|id now out|]; simpl.
  - intros [= H].
    destruct (leading wait now (lastCallTime (vars w))) eqn:Hl.
    + rewrite throttled_leading in H by done. by injection H as <- _.
    + destruct (timeoutId (vars w)) as [id|] eqn:Ht.
      * rewrite (throttled_suppressed _ _ _ _ id) in H by done.
        by injection H as _ <-.
      * rewrite throttled_deferred in H by done. by injection H as _ <-.
  - intros (cb & _ & -> & _)%fire_inv _. unfold on_timeout.
    by destruct (lastArgs (vars w)).
  - intros [= H]. unfold cancel in H.
    pose proof (clear_pending_invocations w) as Hi.
    destruct (clear_pending w) as [h l]. by injection H as _ <-.
Qed.

Lemma firing_times_sublist es w :
  firing_times wait es w `sublist_of` readings es.
Proof.
  revert w. induction es as [|e es IH]; intros w; [done|].
  simpl. destruct (step wait e w) as [[w1 l1]|] eqn:Hs;
    [|apply sublist_nil_l].
  unfold readings. simpl. fold (readings es).
  destruct (invocations l1) as [|i l] eqn:Hi.
  - destruct (clock_of e); [by apply sublist_cons|done].
  - rewrite (step_invokes_at_reading e w w1 l1 Hs) by (by rewrite Hi).
    by apply sublist_skip.
Qed.

Lemma StronglySorted_sublist (l1 l2 : list Z) :
  l1 `sublist_of` l2 → StronglySorted Z.le l2 → StronglySorted Z.le l1.
Proof.
  induction 1 as [|x l1 l2 Hsub IH|x l1 l2 Hsub IH]; [done| |].
  - rewrite !StronglySorted_cons. intros [Hx Hs]. split; [|auto].
    rewrite Forall_forall in *. intros y Hy. apply Hx.
    by apply (sublist_subseteq _ _ Hsub).
  - rewrite StronglySorted_cons. intros [_ Hs]. auto.
Qed.

(** C9 (as amended).  In a run whose clock readings never decrease, the
    values [lastCallTime] takes at the successive calls of [func] never
    decrease.  Whatever the clock, a wrapper call that does not call [func]
    leaves [lastCallTime] as it was. *)
Theorem lastCallTime_monotone_with_clock es w :
  StronglySorted Z.le (readings es) →
  StronglySorted Z.le (firing_times wait es w) ∧
  ∀ w0 now this args,
    invocations (snd (throttled wait now this args w0)) = [] →
    lastCallTime (vars (fst (throttled wait now this args w0)))
      = lastCallTime (vars w0).
Proof.
  intros Hs. split.
  - eapply StronglySorted_sublist; [apply firing_times_sublist|done].
  - intros w0 now this args.
    destruct (leading wait now (lastCallTime (vars w0))) eqn:Hl.
    + rewrite throttled_leading by done. simpl.
      rewrite invocations_app, clear_pending_invocations. done.
    + destruct (timeoutId (vars w0)) as [id|] eqn:Ht.
      * by rewrite (throttled_suppressed _ _ _ _ id).
      * by rewrite throttled_deferred.
Qed.

End Proofs.

Section ZeroWait.

Context {This Args : Type}.

Implicit Types (w : World This Args) (e : Event This Args).

(** *** Throttling with [wait = 0] *)

Lemma leading_zero_wait now last : leading 0 now last = true.
Proof. apply leading_true. unfold remaining_at. lia. Qed.

Lemma throttled_zero_wait now this args w :
  timeoutId (vars w) = None →
  throttled 0 now this args w =
    ({| vars := {| timeoutId := None; lastArgs := lastArgs (vars w);
                   lastCallTime := now |};
        host := host w |},
     [Invoke this args]).
Proof.
  intros Ht. rewrite throttled_leading by apply leading_zero_wait.
  unfold clear_pending. by rewrite Ht.
Qed.

Lemma run_calls_zero_wait (calls : list (Z * This * Args)) w :
  timeoutId (vars w) = None →
  ∃ w', run 0 (map call_event calls) w =
          Some (w', map (λ c, Invoke (call_invoke c).1 (call_invoke c).2)
                        calls) ∧
        timeoutId (vars w') = None ∧ host w' = host w.
Proof.
  revert w. induction calls as [|[[now this] args] calls IH]; intros w Ht.
  - by exists w.
  - simpl. rewrite throttled_zero_wait by done.
    edestruct IH as (w' & -> & Ht' & Hh'); [|by exists w']. done.
Qed.

Lemma step_zero_wait_scheduled e w w' log :
  step 0 e w = Some (w', log) → scheduled log = [].
Proof.
  destruct e as [now this args|id now out|]; simpl.
  - intros [= H]. rewrite throttled_leading in H by apply leading_zero_wait.
    injection H as _ <-. rewrite scheduled_app, clear_pending_scheduled. done.
  - intros (cb & _ & _ & ->)%fire_inv. unfold on_timeout.
    by destruct (lastArgs (vars w)).
  - intros [= H]. unfold cancel in H.
    pose proof (clear_pending_scheduled w) as Hs.
    destruct (clear_pending w) as [h l]. by injection H as _ <-.
Qed.

(** C8.  With [wait = 0] every wrapper call takes the leading-edge branch:
    from any state it calls [func] once, with its own [this] and arguments,
    and schedules nothing.  A sequence of calls on a fresh wrapper, whatever
    the clock readings, logs exactly the calls of [func] in order, one per
    wrapper call, and leaves the host without timers; no run from the fresh
    wrapper ever schedules a timer. *)
Theorem zero_wait_always_immediate :
  (∀ now last, leading 0 now last = true) ∧
  (∀ (w : World This Args) now this args,
     invocations (snd (throttled 0 now this args w)) = [(this, args)] ∧
     scheduled (snd (throttled 0 now this args w)) = []) ∧
  (∀ calls : list (Z * This * Args),
     ∃ w, run 0 (map call_event calls) init =
            Some (w, map (λ c, Invoke (call_invoke c).1 (call_invoke c).2)
                         calls) ∧
          timeoutId (vars w) = None ∧ timers (host w) = ∅) ∧
  (∀ es w log, run 0 es init = Some (w, log) → scheduled log = []).
Proof.
  split; [apply leading_zero_wait|]. split; [|split].
  - intros w now this args.
    rewrite throttled_leading by apply leading_zero_wait. simpl.
    rewrite invocations_app, scheduled_app.
    by rewrite clear_pending_invocations, clear_pending_scheduled.
  - intros calls.
    destruct (run_calls_zero_wait calls init) as (w & Hr & Ht & Hh); [done|].
    exists w. by rewrite Hh.
  - intros es. generalize (init : World This Args).
    induction es as [|e es IH]; intros w0 w log.
    + by intros [= _ <-].
    + intros (w1 & l1 & l2 & Hs & Hr & ->)%run_cons.
      rewrite scheduled_app, (step_zero_wait_scheduled e w0 w1 l1 Hs).
      by apply (IH w1 w).
Qed.

End ZeroWait.

(** ** Further properties of the code *)

Section More.

Context {This Args : Type}.
Variable wait : Z.

Implicit Types (w : World This Args) (e : Event This Args)
  (es : list (Event This Args)) (log : list (Effect This Args))
  (cb : Timer This Args) (id : positive).

(** *** What a step is, branch by branch *)

Lemma step_cases e w w' log :
  Inv w → step wait e w = Some (w', log) →
  (∃ now this args,
     e = Call now this args ∧
     leading wait now (lastCallTime (vars w)) = true ∧
     w' = {| vars := {| timeoutId := None; lastArgs := lastArgs (vars w);
                        lastCallTime := now |};
             host := {| timers := ∅; nextId := nextId (host w) |} |} ∧
     log = snd (clear_pending w) ++ [Invoke this args]) ∨
  (∃ now this args,
     e = Call now this args ∧
     leading wait now (lastCallTime (vars w)) = false ∧
     timeoutId (vars w) = None ∧ timers (host w) = ∅ ∧
     w' = {| vars := {| timeoutId := Some (nextId (host w));
                        lastArgs := Some args;
                        lastCallTime := lastCallTime (vars w) |};
             host := {| timers :=
                          {[ nextId (host w) :=
                               {| t_delay := remaining_at wait now
                                               (lastCallTime (vars w));
                                  t_set := now; t_this := this;
                                  t_args := args |} ]};
                        nextId := Pos.succ (nextId (host w)) |} |} ∧
     log = [SetTimeout (nextId (host w))
              (remaining_at wait now (lastCallTime (vars w)))]) ∨
  (∃ now this args id,
     e = Call now this args ∧
     leading wait now (lastCallTime (vars w)) = false ∧
     timeoutId (vars w) = Some id ∧ w' = w ∧ log = []) ∨
  (∃ id now out cb,
     e = Fire id now out ∧ timers (host w) = {[ id := cb ]} ∧
     timeoutId (vars w) = Some id ∧
     w' = {| vars := {| timeoutId := None;
                        lastArgs := match out with
                                    | Returns => None
                                    | Throws => Some (t_args cb)
                                    end;
                        lastCallTime := now |};
             host := {| timers := ∅; nextId := nextId (host w) |} |} ∧
     log = [Invoke (t_this cb) (t_args cb)]) ∨
  (e = Cancel ∧
   w' = {| vars := init_vars;
           host := {| timers := ∅; nextId := nextId (host w) |} |} ∧
   log = snd (clear_pending w)).
Proof.
  intros HI Hs.
  assert (fst (clear_pending w)
          = {| timers := ∅; nextId := nextId (host w) |}) as Hcp.
  { pose proof (clear_pending_empty w HI) as H1.
    pose proof (clear_pending_nextId w) as H2.
    destruct (fst (clear_pending w)) as [t n]. simpl in *. by subst. }
  destruct e as [now this args|id now out|]; simpl in Hs.
  - injection Hs as Hs.
    destruct (leading wait now (lastCallTime (vars w))) eqn:Hl.
    + left. exists now, this, args.
      rewrite throttled_leading in Hs by done. injection Hs as <- <-.
      by rewrite Hcp.
    + destruct (timeoutId (vars w)) as [id|] eqn:Ht.
      * right; right; left. exists now, this, args, id.
        rewrite (throttled_suppressed _ _ _ _ _ id) in Hs by done.
        by injection Hs as <- <-.
      * right; left. exists now, this, args.
        assert (timers (host w) = ∅) as He
          by (unfold Inv in HI; by rewrite Ht in HI).
        rewrite throttled_deferred in Hs by done. injection Hs as <- <-.
        by rewrite He, insert_empty.
  - right; right; right; left.
    pose proof Hs as (cb & Hl & _)%fire_inv.
    destruct (Inv_lookup w id cb HI Hl) as (Ht & He & _).
    rewrite (fire_pending w id cb now out HI Hl) in Hs.
    injection Hs as <- <-. by exists id, now, out, cb.
  - right; right; right; right. injection Hs as Hs.
    rewrite cancel_eq in Hs. injection Hs as <- <-. by rewrite Hcp.
Qed.

(** *** The due time of the pending timer *)

Lemma due_after_wait_step e w w' log :
  Inv w → due_after_wait wait w → step wait e w = Some (w', log) →
  due_after_wait wait w'.
Proof.
  intros HI HD Hs.
  destruct (step_cases e w w' log HI Hs)
    as [(now & this & args & _ & _ & -> & _)
       |[(now & this & args & _ & Hl & _ & _ & -> & _)
        |[(now & this & args & id & _ & _ & _ & -> & _)
         |[(id & now & out & cb & _ & _ & _ & -> & _)|(_ & -> & _)]]]];
    unfold due_after_wait; simpl; try done.
  intros id cb [<- <-]%lookup_singleton_Some.
  apply leading_false in Hl. unfold t_due, remaining_at in *. simpl. lia.
Qed.

Lemma due_after_wait_run es w w' log :
  Inv w → due_after_wait wait w → run wait es w = Some (w', log) →
  due_after_wait wait w'.
Proof.
  revert w log. induction es as [|e es IH]; intros w log HI HD.
  - by intros [= <- _].
  - intros (w1 & l1 & l2 & Hs & Hr & _)%run_cons.
    eapply IH; [by eapply Inv_step|by eapply due_after_wait_step|done].
Qed.

Lemma reachable_due_after_wait w :
  reachable wait w → due_after_wait wait w.
Proof.
  intros (es & log & Hr).
  eapply due_after_wait_run; [apply Inv_init| |done].
  intros id' cb' H. unfold init in H. simpl in H.
  by rewrite lookup_empty in H.
Qed.

(** X1.  In a reachable state, a pending timer was given a delay in
    (0, wait] and is due exactly [wait] after [lastCallTime]: a deferred call
    waits for the end of the current window, never longer than [wait]. *)
Theorem pending_timer_due_after_wait w id cb :
  reachable wait w → timers (host w) !! id = Some cb →
  0 < t_delay cb <= wait ∧ t_due cb = lastCallTime (vars w) + wait.
Proof.
  intros HD%reachable_due_after_wait Hl. by destruct (HD id cb Hl).
Qed.

(** *** When a call runs [func] at once *)

(** X2.  A wrapper call calls [func] within the call exactly when at least
    [wait] has passed on the clock since [lastCallTime], or the clock reads
    less than [lastCallTime]; otherwise it does not call [func] at all. *)
Theorem immediate_iff_window_elapsed w now this args :
  (lastCallTime (vars w) + wait <= now ∨ now < lastCallTime (vars w) →
   invocations (snd (throttled wait now this args w)) = [(this, args)]) ∧
  (lastCallTime (vars w) <= now < lastCallTime (vars w) + wait →
   invocations (snd (throttled wait now this args w)) = []).
Proof.
  split; intros H.
  - rewrite throttled_leading.
    + simpl. by rewrite invocations_app, clear_pending_invocations.
    + apply leading_true. unfold remaining_at. lia.
  - assert (leading wait now (lastCallTime (vars w)) = false) as Hl
      by (apply leading_false; unfold remaining_at; lia).
    destruct (timeoutId (vars w)) as [id|] eqn:Ht.
    + by rewrite (throttled_suppressed _ _ _ _ _ id).
    + by rewrite throttled_deferred.
Qed.

(** X3.  With [wait <= 0], negative values included, every wrapper call from
    every state calls [func] at once with its own [this] and arguments, and
    never schedules a timer. *)
Theorem nonpositive_wait_never_defers w now this args :
  wait <= 0 →
  invocations (snd (throttled wait now this args w)) = [(this, args)] ∧
  scheduled (snd (throttled wait now this args w)) = [].
Proof.
  intros Hw. rewrite throttled_leading.
  - simpl. rewrite invocations_app, scheduled_app.
    by rewrite clear_pending_invocations, clear_pending_scheduled.
  - apply leading_true. unfold remaining_at. lia.
Qed.

(** *** The timers the wrapper creates and clears *)

Lemma cleared_app log1 log2 :
  cleared (log1 ++ log2) = cleared log1 ++ cleared log2.
Proof.
  induction log1 as [|[] log1 IH]; simpl; [done|done|done|by f_equal].
Qed.

Lemma clear_pending_cleared w :
  Inv w →
  (length (cleared (snd (clear_pending w))) = size (timers (host w)))%nat ∧
  ∀ id, In id (cleared (snd (clear_pending w))) →
        is_Some (timers (host w) !! id).
Proof.
  unfold Inv, clear_pending. destruct (timeoutId (vars w)) as [id|].
  - intros (cb & -> & _). simpl. rewrite map_size_singleton.
    split; [done|]. intros id' [<-|[]]. rewrite lookup_singleton_eq.
    by eexists.
  - intros ->. simpl. rewrite map_size_empty. by split.
Qed.

Lemma cleared_was_active w e w' log id :
  Inv w → step wait e w = Some (w', log) →
  In id (cleared log) →
  is_Some (timers (host w) !! id) ∧ timers (host w') !! id = None.
Proof.
  intros HI Hs.
  pose proof (clear_pending_cleared w HI) as [_ Hc].
  destruct (step_cases e w w' log HI Hs)
    as [(now & this & args & _ & _ & -> & ->)
       |[(now & this & args & _ & Hl & _ & _ & -> & ->)
        |[(now & this & args & id' & _ & _ & _ & -> & ->)
         |[(id' & now & out & cb & _ & _ & _ & -> & ->)|(_ & -> & ->)]]]];
    simpl; try done.
  - rewrite cleared_app. simpl. rewrite app_nil_r. intros Hin.
    split; [by apply Hc|apply lookup_empty].
  - intros Hin. split; [by apply Hc|apply lookup_empty].
Qed.

(** X4.  [clearTimeout] is only ever called on a timer that is active at
    that moment, and the timer is gone afterwards. *)
Theorem clearTimeout_only_on_active_timer w e w' log id :
  reachable wait w → step wait e w = Some (w', log) →
  In id (cleared log) →
  is_Some (timers (host w) !! id) ∧ timers (host w') !! id = None.
Proof. intros HI%reachable_Inv. by apply cleared_was_active. Qed.



(** *** The spacing of the calls of [func] *)

Lemma spaced_core es w :
  Inv w → due_after_wait wait w →
  Forall (λ e, ¬ is_cancel e) es →
  StronglySorted Z.le (readings es) →
  timely wait es w = true →
  spaced wait (firing_times wait es w) ∧
  (Forall (λ r, lastCallTime (vars w) <= r) (readings es) →
   spaced_from wait (lastCallTime (vars w)) (firing_times wait es w)).
Proof.
  revert w. induction es as [|e es IH]; intros w HI HD Hnc Hs Htm;
    [by split|].
  apply Forall_cons in Hnc as [Hne Hnc].
  simpl in Htm |- *.
  destruct (step wait e w) as [[w1 l1]|] eqn:Hstep; [|by split].
  apply andb_true_iff in Htm as [Hnow Htm].
  pose proof (Inv_step wait e w w1 l1 HI Hstep) as HI1.
  pose proof (due_after_wait_step e w w1 l1 HI HD Hstep) as HD1.
  specialize (IH w1 HI1 HD1 Hnc).
  destruct (step_cases e w w1 l1 HI Hstep)
    as [(now & this & args & -> & Hl & -> & ->)
       |[(now & this & args & -> & Hl & _ & He & -> & ->)
        |[(now & this & args & id' & -> & _ & _ & -> & ->)
         |[(id' & now & out & cb & -> & He & _ & -> & ->)
          |(-> & _)]]]]; [| | | |done].
  - change (readings (Call now this args :: es)) with (now :: readings es)
      in *.
    apply StronglySorted_cons in Hs as [Hge Hs].
    destruct (IH Hs Htm) as [_ IH2]. specialize (IH2 Hge).
    rewrite invocations_app, clear_pending_invocations. simpl in *.
    split; [done|]. intros [Hle _]%Forall_cons. split; [|done].
    apply leading_true in Hl. unfold remaining_at in Hl. lia.
  - change (readings (Call now this args :: es)) with (now :: readings es)
      in *.
    apply StronglySorted_cons in Hs as [_ Hs].
    destruct (IH Hs Htm) as [IH1 IH2]. simpl in *.
    split; [done|]. intros [_ Hle]%Forall_cons. auto.
  - change (readings (Call now this args :: es)) with (now :: readings es)
      in *.
    apply StronglySorted_cons in Hs as [_ Hs].
    destruct (IH Hs Htm) as [IH1 IH2]. simpl in *.
    split; [done|]. intros [_ Hle]%Forall_cons. auto.
  - change (readings (Fire id' now out :: es)) with (now :: readings es)
      in *.
    apply StronglySorted_cons in Hs as [Hge Hs].
    destruct (IH Hs Htm) as [_ IH2]. specialize (IH2 Hge).
    rewrite He, lookup_singleton_eq in Hnow. apply Z.leb_le in Hnow.
    destruct (HD id' cb) as [Hdue _]; [by rewrite He, lookup_singleton_eq|].
    simpl in *. split; [done|]. intros _. split; [lia|done].
Qed.

(** X6.  The promise of the header comment, "called at most once per [wait]
    milliseconds": in a run without [cancel()], on a clock that does not go
    back and with no timer run before it is due, successive calls of [func]
    are at least [wait] apart; and if no reading is below the initial
    [lastCallTime], the first call of [func] is at least [wait] after it. *)
Theorem invocations_spaced_by_wait es w :
  reachable wait w →
  Forall (λ e, ¬ is_cancel e) es →
  StronglySorted Z.le (readings es) →
  timely wait es w = true →
  spaced wait (firing_times wait es w) ∧
  (Forall (λ r, lastCallTime (vars w) <= r) (readings es) →
   spaced_from wait (lastCallTime (vars w)) (firing_times wait es w)).
Proof.
  intros Hr. apply spaced_core; [by apply (reachable_Inv wait)|].
  by apply reachable_due_after_wait.
Qed.

Lemma default_last_cons (d x : Z) (l : list Z) :
  default d (last (x :: l)) = default x (last l).
Proof.
  revert d x. induction l as [|y l IH]; intros d x; [done|].
  change (last (x :: y :: l)) with (last (y :: l)).
  by rewrite (IH d y), (IH x y).
Qed.

(** *** Where the arguments of [func] come from *)

(** X8.  [func] is only ever called with the [this] and arguments of wrapper
    calls, in the order of those calls, and at most once per call: the calls
    of [func] in a run are a sublist of the call a pending timer stands for
    followed by the wrapper calls of the run. *)
Theorem invocations_sublist_of_calls es w w' log :
  reachable wait w → run wait es w = Some (w', log) →
  invocations log `sublist_of` pending_call w ++ calls_of es.
Proof.
  intros HI%reachable_Inv. revert w log HI.
  induction es as [|e es IH]; intros w log HI.
  - intros [= _ <-]. apply sublist_nil_l.
  - intros (w1 & l1 & l2 & Hstep & Hrun & ->)%run_cons.
    pose proof (Inv_step wait e w w1 l1 HI Hstep) as HI1.
    specialize (IH w1 l2 HI1 Hrun). rewrite invocations_app.
    destruct (step_cases e w w1 l1 HI Hstep)
      as [(now & this & args & -> & Hl & -> & ->)
         |[(now & this & args & -> & Hl & Ht & He & -> & ->)
          |[(now & this & args & id' & -> & _ & _ & -> & ->)
           |[(id' & now & out & cb & -> & He & Ht & -> & ->)
            |(-> & -> & ->)]]]].
    + rewrite invocations_app, clear_pending_invocations.
      change (calls_of (Call now this args :: es))
        with ((this, args) :: calls_of es).
      apply sublist_inserts_l. by apply sublist_skip.
    + unfold pending_call in *. simpl in IH.
      rewrite lookup_singleton_eq in IH. by rewrite Ht.
    + change (calls_of (Call now this args :: es))
        with ((this, args) :: calls_of es).
      etrans; [exact IH|]. apply sublist_app; [done|by apply sublist_cons].
    + unfold pending_call at 1. rewrite Ht, He, lookup_singleton_eq.
      change (calls_of (Fire id' now out :: es)) with (calls_of es).
      simpl. by apply sublist_skip.
    + rewrite clear_pending_invocations. simpl.
      change (calls_of (Cancel :: es)) with (calls_of es).
      by apply sublist_inserts_l.
Qed.

(** *** Stored arguments without a timer *)

Lemma step_stale a e w w' log :
  Inv w → timeoutId (vars w) = None →
  step wait e w = Some (w', log) →
  ∃ w'', step wait e (with_lastArgs a w) = Some (w'', log) ∧
         (w'' = w' ∨
          timeoutId (vars w') = None ∧ ∃ a', w'' = with_lastArgs a' w').
Proof.
  intros HI Ht Hstep.
  assert (clear_pending (with_lastArgs a w) = clear_pending w) as Hcp
    by done.
  destruct (step_cases e w w' log HI Hstep)
    as [(now & this & args & -> & Hl & -> & ->)
       |[(now & this & args & -> & Hl & _ & He & -> & ->)
        |[(now & this & args & id' & -> & _ & Ht' & -> & ->)
         |[(id' & now & out & cb & -> & He & Ht' & -> & ->)
          |(-> & -> & ->)]]]]; [| |congruence|congruence|].
  - eexists. split.
    + simpl. rewrite throttled_leading by done. by rewrite Hcp.
    + right. split; [done|]. exists a.
      unfold with_lastArgs, clear_pending. simpl. rewrite Ht. simpl.
      pose proof (clear_pending_empty w HI) as Hce.
      unfold clear_pending in Hce. rewrite Ht in Hce. simpl in Hce.
      destruct (host w) as [t n]. simpl in *. by subst.
  - eexists. split; [|by left].
    simpl. rewrite throttled_deferred by done. simpl. by rewrite He.
  - eexists. split; [|by left].
    simpl. rewrite cancel_eq, Hcp. unfold clear_pending. rewrite Ht. simpl.
    pose proof (clear_pending_empty w HI) as Hce.
    unfold clear_pending in Hce. rewrite Ht in Hce. simpl in Hce.
    destruct (host w) as [t n]. simpl in *. by subst.
Qed.

(** X9.  While no timer is pending, what [lastArgs] holds has no effect: the
    arguments the leading-edge branch and a throwing [func] leave behind are
    never read.  From a reachable state without a timer, the same steps with
    any other stored arguments give the same log, and the same final state
    up to the stored arguments of a state without a timer. *)
Theorem stored_args_without_timer_are_dead a es w w' log :
  reachable wait w → timeoutId (vars w) = None →
  run wait es w = Some (w', log) →
  ∃ w'', run wait es (with_lastArgs a w) = Some (w'', log) ∧
         (w'' = w' ∨
          timeoutId (vars w') = None ∧ ∃ a', w'' = with_lastArgs a' w').
Proof.
  intros HI%reachable_Inv. revert a w log HI.
  induction es as [|e es IH]; intros a w log HI Ht.
  - intros [= <- <-]. exists (with_lastArgs a w). split; [done|].
    right. split; [done|]. by exists a.
  - intros (w1 & l1 & l2 & Hstep & Hrun & ->)%run_cons.
    pose proof (Inv_step wait e w w1 l1 HI Hstep) as HI1.
    destruct (step_stale a e w w1 l1 HI Ht Hstep)
      as (w1' & Hstep' & [->|[Ht1 [a' ->]]]).
    + exists w'. split; [|by left].
      apply run_cons. by exists w1, l1, l2.
    + destruct (IH a' w1 l2 HI1 Ht1 Hrun) as (w'' & Hrun' & Hrel).
      exists w''. split; [|done].
      apply run_cons. by exists (with_lastArgs a' w1), l1, l2.
Qed.

(** *** No timer run twice *)

(** X11.  A timer runs at most once and never after it was cleared: once a
    step has cleared timer [id] or run its callback, no later step can run
    it. *)
Theorem timer_never_runs_again w e w1 l1 id es w2 l2 now out :
  reachable wait w → step wait e w = Some (w1, l1) →
  In id (cleared l1) ∨ (∃ now' out', e = Fire id now' out') →
  run wait es w1 = Some (w2, l2) →
  fire id now out w2 = None.
Proof.
  intros Hr Hstep Hid Hrun.
  pose proof (reachable_Inv wait w Hr) as HI.
  assert (is_Some (timers (host w) !! id) ∧ timers (host w1) !! id = None)
    as [[cb Hcb] Hgone].
  { destruct Hid as [Hin|(now' & out' & ->)].
    - by apply (cleared_was_active w e w1 l1 id HI Hstep).
    - simpl in Hstep. pose proof Hstep as (cb & Hl & _)%fire_inv.
      rewrite (fire_pending w id cb now' out' HI Hl) in Hstep.
      injection Hstep as <- _. split; [by eexists|apply lookup_empty]. }
  destruct (Inv_lookup w id cb HI Hcb) as (_ & _ & _ & Hlt).
  pose proof (step_nextId wait e w w1 l1 Hstep) as Hle.
  unfold fire. destruct (timers (host w2) !! id) as [cb2|] eqn:H2; [|done].
  eapply (run_old_timers wait) in H2; [|done|lia]. congruence.
Qed.

(** *** The rate of the calls of [func] *)

Lemma spaced_from_span b t (l : list Z) :
  spaced_from wait t l → Forall (λ x, x <= b) l → t <= b →
  t + Z.of_nat (length l) * wait <= b.
Proof.
  revert t. induction l as [|x l IH]; intros t Hs Hb Ht; simpl in *; [lia|].
  destruct Hs as [Hx Hs]. apply Forall_cons in Hb as [Hxb Hb].
  specialize (IH x Hs Hb Hxb). lia.
Qed.

(** X12.  The rate limit in numbers: in a run without [cancel()], on a clock
    that does not go back and with no timer run before it is due, if all
    clock readings lie in [a, b] then [func] is called at most
    [(b - a) / wait + 1] times, that is, [(n - 1) * wait <= b - a] for the
    number [n] of calls. *)
Theorem invocation_rate_bounded es w a b :
  reachable wait w →
  Forall (λ e, ¬ is_cancel e) es →
  StronglySorted Z.le (readings es) →
  timely wait es w = true →
  0 <= wait → a <= b →
  Forall (λ r, a <= r <= b) (readings es) →
  (Z.of_nat (length (firing_times wait es w)) - 1) * wait <= b - a.
Proof.
  intros Hr Hnc Hs Htm Hw Hab Hin.
  destruct (spaced_core es w (reachable_Inv wait w Hr)
              (reachable_due_after_wait w Hr) Hnc Hs Htm) as [Hsp _].
  assert (Forall (λ r, a <= r <= b) (firing_times wait es w)) as Hft.
  { rewrite Forall_forall in *. intros t Ht. apply Hin.
    by apply (sublist_subseteq _ _ (firing_times_sublist wait es w)). }
  destruct (firing_times wait es w) as [|t l]; simpl in *; [lia|].
  apply Forall_cons in Hft as [Ht Hl].
  pose proof (spaced_from_span b t l Hsp) as H.
  assert (t + Z.of_nat (length l) * wait <= b) as Hspan.
  { apply H; [|lia]. eapply Forall_impl; [exact Hl|]. simpl. lia. }
  lia.
Qed.

End More.

(** ** A [func] that calls the wrapper from the timer callback *)

Section Reentrant.

Context {This Args : Type}.
Variable wait : Z.

Implicit Types (w : World This Args) (m : Machine This Args)
  (mv : Move This Args) (mvs : list (Move This Args))
  (log : list (Effect This Args)) (cb : Timer This Args) (id : positive).

(** The one-step callback is the two halves with nothing in between. *)
Lemma fire_is_enter_then_leave id now out w :
  fire id now out w =
  match move wait (MEnter id now) {| m_world := w; m_running := false |} with
  | Some (m1, l1) =>
      if m_running m1 then
        match move wait (MLeave out) m1 with
        | Some (m2, l2) => Some (m_world m2, l1 ++ l2)
        | None => None
        end
      else Some (m_world m1, l1)
  | None => None
  end.
Proof.
  unfold fire, move, on_timeout, callback_enter, callback_leave. simpl.
  destruct (timers (host w) !! id) as [cb|]; [|done].
  destruct (lastArgs (vars w)) as [a|]; [|done]. by destruct out.
Qed.

Lemma play_cons mv mvs m m' log :
  play wait (mv :: mvs) m = Some (m', log) ↔
  ∃ m1 l1 l2, move wait mv m = Some (m1, l1) ∧
              play wait mvs m1 = Some (m', l2) ∧ log = l1 ++ l2.
Proof.
  simpl. split.
  - destruct (move wait mv m) as [[m1 l1]|]; [|done].
    destruct (play wait mvs m1) as [[m2 l2]|] eqn:Hp; [|done].
    intros [= <- <-]. by exists m1, l1, l2.
  - intros (m1 & l1 & l2 & -> & -> & ->). done.
Qed.

(** *** The handle and the host's table *)

Lemma handle_matches_table_clear w :
  handle_matches_table w → timers (fst (clear_pending w)) = ∅.
Proof.
  unfold handle_matches_table, clear_pending.
  destruct (timeoutId (vars w)) as [id|]; [|done].
  intros (cb & Ht & _). simpl. rewrite Ht. apply delete_singleton_eq.
Qed.

Lemma handle_matches_table_throttled now this args w :
  handle_matches_table w →
  handle_matches_table (fst (throttled wait now this args w)).
Proof.
  intros H.
  destruct (leading wait now (lastCallTime (vars w))) eqn:Hl.
  - rewrite throttled_leading by done. unfold handle_matches_table; simpl.
    by apply handle_matches_table_clear.
  - destruct (timeoutId (vars w)) as [id|] eqn:Ht.
    + by rewrite (throttled_suppressed _ _ _ _ _ id).
    + rewrite throttled_deferred by done.
      unfold handle_matches_table in *; simpl. rewrite Ht in H.
      rewrite H, insert_empty. eexists. split; [done|lia].
Qed.

Lemma handle_matches_table_cancel w :
  handle_matches_table w → handle_matches_table (fst (cancel w)).
Proof.
  intros H. rewrite cancel_eq. unfold handle_matches_table; simpl.
  by apply handle_matches_table_clear.
Qed.

Lemma move_enter_inv id now m m' log :
  move wait (MEnter id now) m = Some (m', log) →
  m_running m = false ∧
  ∃ cb, timers (host (m_world m)) !! id = Some cb ∧
        m' = {| m_world :=
                  {| vars := {| timeoutId := None;
                                lastArgs := lastArgs (vars (m_world m));
                                lastCallTime := now |};
                     host := clearTimeout id (host (m_world m)) |};
                m_running := bool_decide
                               (is_Some (lastArgs (vars (m_world m)))) |} ∧
        log = match lastArgs (vars (m_world m)) with
              | Some a => [Invoke (t_this cb) a]
              | None => []
              end.
Proof.
  unfold move, callback_enter.
  destruct (m_running m); [done|].
  destruct (timers (host (m_world m)) !! id) as [cb|] eqn:Hl; [|done].
  destruct (lastArgs (vars (m_world m))) as [a|] eqn:Ha;
    intros [= <- <-]; (split; [done|]); exists cb; by rewrite ?Ha.
Qed.

Lemma handle_matches_table_move mv m m' log :
  handle_matches_table (m_world m) → move wait mv m = Some (m', log) →
  handle_matches_table (m_world m').
Proof.
  intros H. destruct mv as [now this args| |id now|out].
  - simpl. pose proof (handle_matches_table_throttled now this args _ H) as H'.
    destruct (throttled wait now this args (m_world m)) as [w l].
    by intros [= <- _].
  - simpl. pose proof (handle_matches_table_cancel _ H) as H'.
    destruct (cancel (m_world m)) as [w l]. by intros [= <- _].
  - intros (_ & cb & Hl & -> & _)%move_enter_inv.
    unfold handle_matches_table in *; simpl.
    destruct (timeoutId (vars (m_world m))) as [id'|].
    + destruct H as (cb' & Ht & _). rewrite Ht in *.
      apply lookup_singleton_Some in Hl as [-> _].
      apply delete_singleton_eq.
    + rewrite H in Hl. by rewrite lookup_empty in Hl.
  - simpl. destruct (m_running m); [|done]. intros [= <- _].
    unfold handle_matches_table in *; simpl. by destruct out.
Qed.

Lemma handle_matches_table_play mvs m m' log :
  handle_matches_table (m_world m) → play wait mvs m = Some (m', log) →
  handle_matches_table (m_world m').
Proof.
  revert m log. induction mvs as [|mv mvs IH]; intros m log H.
  - by intros [= <- _].
  - intros (m1 & l1 & l2 & Hm & Hp & _)%play_cons.
    eapply IH; [|done]. by eapply handle_matches_table_move.
Qed.

Lemma playable_handle_matches_table m :
  playable wait m → handle_matches_table (m_world m).
Proof.
  intros (mvs & log & Hp).
  by apply (handle_matches_table_play mvs start m log).
Qed.

(** C7.  [cancel()] succeeds from every state without calling [func]; it
    leaves no timer handle, no stored arguments and [lastCallTime = 0].  If
    a timer handle is set it calls [clearTimeout] on it, which takes that
    timer out of the host's table; otherwise it leaves the host alone.  In
    every state the wrapper can reach, whether or not [func] calls the
    wrapper, the host holds no timer afterwards.  A second [cancel()] right
    after it changes nothing and does nothing. *)
Theorem cancel_idempotent w :
  step wait Cancel w = Some (cancel w) ∧
  invocations (snd (cancel w)) = [] ∧
  timeoutId (vars (fst (cancel w))) = None ∧
  lastArgs (vars (fst (cancel w))) = None ∧
  lastCallTime (vars (fst (cancel w))) = 0 ∧
  (∀ id, timeoutId (vars w) = Some id →
         snd (cancel w) = [ClearTimeout id] ∧
         timers (host (fst (cancel w))) = delete id (timers (host w))) ∧
  (timeoutId (vars w) = None →
   snd (cancel w) = [] ∧ host (fst (cancel w)) = host w) ∧
  (reachable wait w → timers (host (fst (cancel w))) = ∅) ∧
  (∀ m, playable wait m → m_world m = w →
        timers (host (fst (cancel w))) = ∅) ∧
  cancel (fst (cancel w)) = (fst (cancel w), []).
Proof.
  split; [done|]. rewrite (cancel_eq w). simpl.
  split; [by rewrite clear_pending_invocations|].
  split; [done|]. split; [done|]. split; [done|].
  split; [|split; [|split; [|split]]].
  - intros id Ht. unfold clear_pending. by rewrite Ht.
  - intros Ht. unfold clear_pending. by rewrite Ht.
  - intros HI%reachable_Inv. by apply clear_pending_empty.
  - intros m Hm <-. apply handle_matches_table_clear.
    by apply playable_handle_matches_table.
  - done.
Qed.

(** *** Runs in which [func] makes no call from the timer callback *)

Lemma tame_move mv m m' log :
  Inv (m_world m) →
  (m_running m = true → timeoutId (vars (m_world m)) = None) →
  move wait mv m = Some (m', log) →
  match mv with MCall _ _ _ => m_running m = false | _ => True end →
  Inv (m_world m') ∧
  (m_running m' = true → timeoutId (vars (m_world m')) = None).
Proof.
  intros HI Hrun. destruct mv as [now this args| |id now|out].
  - simpl. pose proof (Inv_throttled wait now this args _ HI) as HI'.
    destruct (throttled wait now this args (m_world m)) as [w l].
    intros [= <- _] Hnr. simpl. split; [done|]. intros. congruence.
  - simpl. pose proof (Inv_cancel _ HI) as HI'.
    assert (timeoutId (vars (fst (cancel (m_world m)))) = None) as Ht
      by (by rewrite cancel_eq).
    destruct (cancel (m_world m)) as [w l]. by intros [= <- _] _.
  - intros (_ & cb & Hl & -> & _)%move_enter_inv _. simpl.
    destruct (Inv_lookup _ id cb HI Hl) as (_ & Ht & _).
    split; [|done]. unfold Inv; simpl. rewrite Ht.
    apply delete_singleton_eq.
  - simpl. destruct (m_running m) eqn:Hr; [|done]. intros [= <- _] _.
    specialize (Hrun eq_refl). simpl. split; [|done].
    unfold Inv in *. rewrite Hrun in HI. destruct out; simpl; by rewrite ?Hrun.
Qed.

Lemma tame_play mvs m m' log :
  Inv (m_world m) →
  (m_running m = true → timeoutId (vars (m_world m)) = None) →
  tame wait mvs m = true →
  play wait mvs m = Some (m', log) →
  Inv (m_world m') ∧
  (m_running m' = true → timeoutId (vars (m_world m')) = None).
Proof.
  revert m log. induction mvs as [|mv mvs IH]; intros m log HI Hrun Htm.
  - by intros [= <- _].
  - intros (m1 & l1 & l2 & Hm & Hp & _)%play_cons.
    simpl in Htm. rewrite Hm in Htm.
    apply andb_true_iff in Htm as [Hc Htm].
    destruct (tame_move mv m m1 l1 HI Hrun Hm) as [HI1 Hrun1].
    { destruct mv; [|done|done|done]. by apply negb_true_iff. }
    by eapply IH.
Qed.

Lemma tame_start_Inv mvs m log :
  play wait mvs start = Some (m, log) → tame wait mvs start = true →
  Inv (m_world m).
Proof.
  intros Hp Htm.
  by destruct (tame_play mvs start m log) as [H _];
    [apply Inv_init|done|done|done|].
Qed.

(** X10.  As long as [func] makes no wrapper call from inside a timer
    callback, a wrapper call made while no callback is running is never lost
    without a trace: after it, either [func] has just been called with its
    arguments and no timer is left, or [func] was not called and exactly one
    timer is pending, whose callback calls [func]. *)
Theorem tame_call_runs_or_leaves_timer mvs log m now this args :
  play wait mvs start = Some (m, log) →
  tame wait mvs start = true →
  m_running m = false →
  (invocations (snd (throttled wait now this args (m_world m)))
     = [(this, args)] ∧
   timers (host (fst (throttled wait now this args (m_world m)))) = ∅) ∨
  (invocations (snd (throttled wait now this args (m_world m))) = [] ∧
   ∃ id cb,
     timeoutId (vars (fst (throttled wait now this args (m_world m))))
       = Some id ∧
     timers (host (fst (throttled wait now this args (m_world m))))
       = {[ id := cb ]} ∧
     ∀ now', ∃ m'',
       move wait (MEnter id now')
         {| m_world := fst (throttled wait now this args (m_world m));
            m_running := false |}
       = Some (m'', [Invoke (t_this cb) (t_args cb)])).
Proof.
  intros Hp Htm _. pose proof (tame_start_Inv mvs m log Hp Htm) as HI.
  set (w := m_world m) in *.
  pose proof (Inv_throttled wait now this args w HI) as HI1.
  destruct (leading wait now (lastCallTime (vars w))) eqn:Hl.
  - left. rewrite throttled_leading by done. simpl.
    rewrite invocations_app, clear_pending_invocations.
    by rewrite clear_pending_empty.
  - right.
    assert (invocations (snd (throttled wait now this args w)) = []) as Hi.
    { destruct (timeoutId (vars w)) as [id|] eqn:Ht.
      - by rewrite (throttled_suppressed _ _ _ _ _ id).
      - by rewrite throttled_deferred. }
    split; [done|].
    assert (is_Some (timeoutId (vars (fst (throttled wait now this args w)))))
      as [id Hid].
    { destruct (timeoutId (vars w)) as [id|] eqn:Ht.
      - rewrite (throttled_suppressed _ _ _ _ _ id) by done. simpl.
        rewrite Ht. by eexists.
      - rewrite throttled_deferred by done. simpl. by eexists. }
    unfold Inv in HI1. rewrite Hid in HI1. destruct HI1 as (cb & Hc & Ha & Hn).
    exists id, cb. split; [done|]. split; [done|]. intros now'.
    eexists. unfold move, callback_enter. simpl.
    by rewrite Hc, lookup_singleton_eq, Ha.
Qed.

(** X7.  [lastCallTime] is written by the leading-edge branch and by the
    timer callback only (and reset by [cancel()]): after any run without
    [cancel()], from any state and whatever [func] calls, it is the clock
    reading of the last leading-edge call or timer callback of the run, or
    its initial value if there was none. *)
Theorem lastCallTime_is_last_stamp mvs m m' log :
  Forall (λ mv, ¬ is_mcancel mv) mvs →
  play wait mvs m = Some (m', log) →
  lastCallTime (vars (m_world m'))
  = default (lastCallTime (vars (m_world m))) (last (stamps wait mvs m)).
Proof.
  revert m log. induction mvs as [|mv mvs IH]; intros m log Hnc.
  - by intros [= <- _].
  - intros (m1 & l1 & l2 & Hm & Hp & _)%play_cons.
    apply Forall_cons in Hnc as [Hne Hnc].
    specialize (IH m1 l2 Hnc Hp). simpl. rewrite Hm.
    destruct mv as [now this args| |id now|out]; [| done | |].
    + simpl in Hm.
      destruct (leading wait now (lastCallTime (vars (m_world m)))) eqn:Hl.
      * rewrite throttled_leading in Hm by done. injection Hm as <- _.
        by rewrite default_last_cons.
      * destruct (timeoutId (vars (m_world m))) as [id|] eqn:Ht.
        -- rewrite (throttled_suppressed _ _ _ _ _ id) in Hm by done.
           by injection Hm as <- _.
        -- rewrite throttled_deferred in Hm by done. by injection Hm as <- _.
    + apply move_enter_inv in Hm as (_ & cb & _ & -> & _).
      by rewrite default_last_cons.
    + simpl in Hm. destruct (m_running m); [|done]. injection Hm as <- _.
      rewrite IH. simpl. by destruct out.
Qed.

(** X13.  As long as [func] makes no wrapper call from inside a timer
    callback: a set timer handle names the one timer the host holds, and
    [lastArgs] holds the arguments that timer was created with; a call that
    schedules a timer creates it with its own [this] and arguments; and a
    timer callback that starts finds those arguments and calls [func] once
    with them. *)
Theorem tame_callback_finds_scheduling_args mvs log m :
  play wait mvs start = Some (m, log) →
  tame wait mvs start = true →
  (∀ id, timeoutId (vars (m_world m)) = Some id →
         ∃ cb, timers (host (m_world m)) = {[ id := cb ]} ∧
               lastArgs (vars (m_world m)) = Some (t_args cb)) ∧
  (∀ now this args id delay,
     snd (throttled wait now this args (m_world m)) = [SetTimeout id delay] →
     timers (host (fst (throttled wait now this args (m_world m)))) !! id
     = Some {| t_delay := delay; t_set := now;
               t_this := this; t_args := args |}) ∧
  (∀ id now m' log',
     move wait (MEnter id now) m = Some (m', log') →
     ∃ cb, timers (host (m_world m)) !! id = Some cb ∧
           lastArgs (vars (m_world m)) = Some (t_args cb) ∧
           log' = [Invoke (t_this cb) (t_args cb)] ∧
           m_running m' = true).
Proof.
  intros Hp Htm. pose proof (tame_start_Inv mvs m log Hp Htm) as HI.
  split; [|split].
  - intros id Ht. unfold Inv in HI. rewrite Ht in HI.
    destruct HI as (cb & Hc & Ha & _). by exists cb.
  - intros now this args id delay Hs.
    destruct (leading wait now (lastCallTime (vars (m_world m)))) eqn:Hl.
    { rewrite throttled_leading in Hs by done. simpl in Hs.
      unfold clear_pending in Hs.
      by destruct (timeoutId (vars (m_world m))). }
    destruct (timeoutId (vars (m_world m))) as [id'|] eqn:Ht.
    { by rewrite (throttled_suppressed _ _ _ _ _ id') in Hs. }
    rewrite throttled_deferred in * by done. simpl in *.
    injection Hs as <- <-. apply lookup_insert_eq.
  - intros id now m' log' (_ & cb & Hl & -> & ->)%move_enter_inv.
    destruct (Inv_lookup _ id cb HI Hl) as (_ & _ & Ha & _).
    exists cb. rewrite Ha. simpl. split; [done|]. split; [done|].
    by split.
Qed.

End Reentrant.

(** ** The claims on the concrete wrapper *)

Local Open Scope string_scope.

Lemma w_fired_reachable : reachable 100 w_fired.
Proof. exists [Call 1000 tt "a"], [Invoke tt "a"]. by vm_compute. Qed.

Lemma w_pending_reachable : reachable 100 w_pending.
Proof.
  exists [Call 1000 tt "a"; Call 1030 tt "b"],
         [Invoke tt "a"; SetTimeout 1 70].
  by vm_compute.
Qed.

(** A run in the manner of the specification's scenario, on a clock that
    starts at 1000: the call at 1060 is dropped, the timer fires with the
    arguments of the call at 1030, and the call at 1250, 150 ms after the
    timer has run, is a leading-edge call again. *)
Example scenario_log :
  ∃ w, run 100 [Call 1000 tt "a"; Call 1030 tt "b"; Call 1060 tt "c";
                Fire 1 1100 Returns; Call 1250 tt "d"] init
       = Some (w, [Invoke tt "a"; SetTimeout 1 70; Invoke tt "b";
                   Invoke tt "d"]).
Proof. eexists. by vm_compute. Qed.

(** C1.  The code at the failing input.  The timer of [w_pending] is late:
    the next call arrives at 1200, before the host has run it.  The call
    takes the leading-edge branch, clears the timer and the handle, and
    leaves [lastArgs] set, where [cancel()] and the timer callback clear it:
    the handle is unset while the stored arguments are set. *)
Lemma leading_edge_keeps_stored_args :
  reachable 100 w_pending ∧
  is_Some (timeoutId (vars w_pending)) ∧
  leading 100 1200 (lastCallTime (vars w_pending)) = true ∧
  snd (throttled 100 1200 tt "c" w_pending)
    = [ClearTimeout 1; Invoke tt "c"] ∧
  timeoutId (vars (fst (throttled 100 1200 tt "c" w_pending))) = None ∧
  lastArgs (vars (fst (throttled 100 1200 tt "c" w_pending))) = Some "b" ∧
  ¬ pending_iff (fst (throttled 100 1200 tt "c" w_pending)).
Proof.
  split; [apply w_pending_reachable|]. split; [by eexists|].
  split; [done|]. split; [done|]. split; [done|]. split; [done|].
  intros [_ H]. destruct H as [id Hid]; [by eexists|]. discriminate Hid.
Qed.

(** C2, counterexample.  A fresh wrapper with [wait = 100], first called
    while [Date.now()] is 50: [lastCallTime] is 0, [remaining] is 50, the
    call is deferred and [func] is not called within it. *)
Lemma first_call_inside_epoch_window_is_deferred :
  lastCallTime (vars (init : World unit string)) = 0 ∧ 0 <= 100 ∧
  leading 100 50 0 = false ∧
  snd (throttled 100 50 tt "a" init) = [SetTimeout 1 50] ∧
  invocations (snd (throttled 100 50 tt "a" init)) = [].
Proof. by vm_compute. Qed.

(** C2 after [cancel()] on [w_pending], 40 ms after the firing at 1000. *)
Lemma never_called_takes_leading_edge_witness :
  (100 <= 1040 ∨ 1040 < 0) ∧
  invocations (snd (throttled 100 1040 tt "c" (fst (cancel w_pending))))
    = [(tt, "c")].
Proof.
  assert (100 <= 1040 ∨ 1040 < 0) as Hnow by (left; lia).
  split; [exact Hnow|].
  apply (never_called_takes_leading_edge 100 1040 tt "c"
           (fst (cancel w_pending)) Hnow).
  right. left. exists w_pending. reflexivity.
Defined.

(** C8 on a run with [wait = 0]. *)
Lemma zero_wait_always_immediate_witness :
  ∃ w, run 0 [Call 7 tt "a"; Call 7 tt "b"; Cancel; Call 3 tt "c"] init
       = Some (w, [Invoke tt "a"; Invoke tt "b"; Invoke tt "c"]) ∧
       scheduled [Invoke tt "a"; Invoke tt "b"; Invoke tt "c"] = [].
Proof.
  eexists.
  assert (run 0 [Call 7 tt "a"; Call 7 tt "b"; Cancel; Call 3 tt "c"] init
          = Some ({| vars := {| timeoutId := None; lastArgs := None;
                                lastCallTime := 3 |};
                     host := {| timers := ∅; nextId := 1 |} |},
                  [Invoke tt "a"; Invoke tt "b"; Invoke tt "c"])) as Hrun
    by (vm_compute; reflexivity).
  split; [exact Hrun|].
  exact (proj2 (proj2 (proj2 zero_wait_always_immediate)) _ _ _ Hrun).
Defined.


(** C4, counterexample.  The clock of [w_pending] steps back to 900:
    [remaining] is 200, which is positive, and a timer is pending, yet the
    call takes the leading-edge branch ([remaining > wait]): it clears the
    timer and calls [func]. *)
Lemma call_after_clock_step_back_is_not_dropped :
  reachable 100 w_pending ∧
  0 < remaining_at 100 900 (lastCallTime (vars w_pending)) ∧
  timeoutId (vars w_pending) = Some 1%positive ∧
  snd (throttled 100 900 tt "c" w_pending)
    = [ClearTimeout 1; Invoke tt "c"] ∧
  lastCallTime (vars (fst (throttled 100 900 tt "c" w_pending))) = 900 ∧
  timeoutId (vars (fst (throttled 100 900 tt "c" w_pending))) = None ∧
  throttled 100 900 tt "c" w_pending ≠ (w_pending, []).
Proof.
  split; [apply w_pending_reachable|]. split; [by vm_compute|].
  split; [done|]. split; [done|]. split; [done|]. split; [done|].
  intros H. apply (f_equal snd) in H. discriminate H.
Qed.

(** C4 at [w_pending] and a call at 1060. *)
Lemma call_with_timer_pending_is_dropped_witness :
  0 < remaining_at 100 1060 (lastCallTime (vars w_pending)) <= 100 ∧
  timeoutId (vars w_pending) = Some 1%positive ∧
  throttled 100 1060 tt "c" w_pending = (w_pending, []).
Proof.
  assert (0 < remaining_at 100 1060 (lastCallTime (vars w_pending)) <= 100)
    as Hr by (vm_compute; split; [reflexivity|discriminate]).
  split; [exact Hr|]. split; [reflexivity|].
  apply (call_with_timer_pending_is_dropped 100 w_pending 1060 tt "c" 1 Hr).
  reflexivity.
Defined.

(** C5 on a fresh wrapper: firing at 1000, calls at 1030 and 1060, the
    timer run at 1100. *)
Lemma at_most_one_deferred_invocation_witness :
  reachable 100 (init : World unit string) ∧
  leading 100 1000 (lastCallTime (vars (init : World unit string))) = true ∧
  Forall (λ c : Z * unit * string, 1000 <= call_time c < 1000 + 100)
    [(1030, tt, "b"); (1060, tt, "c")] ∧
  (size (timers (host (init : World unit string))) ≤ 1)%nat ∧
  (∃ w1 log1,
     run 100 (Call 1000 tt "a" ::
              map call_event [(1030, tt, "b"); (1060, tt, "c")]) init
       = Some (w1, log1) ∧
     invocations log1 = [(tt, "a")] ∧
     ∀ fires w2 log2,
       Forall is_fire fires → run 100 fires w1 = Some (w2, log2) →
       (length (invocations (log1 ++ log2)) ≤ 2)%nat) ∧
  (length (invocations [Invoke tt "a"; SetTimeout 1 70; Invoke tt "b"])
   ≤ 2)%nat.
Proof.
  assert (reachable 100 (init : World unit string)) as Hr
    by (exists [], []; reflexivity).
  assert (leading 100 1000 (lastCallTime (vars (init : World unit string)))
          = true) as Hl by reflexivity.
  assert (Forall (λ c : Z * unit * string, 1000 <= call_time c < 1000 + 100)
            [(1030, tt, "b"); (1060, tt, "c")]) as Hc.
  { repeat constructor; unfold call_time; simpl; lia. }
  split; [exact Hr|]. split; [exact Hl|]. split; [exact Hc|].
  destruct (at_most_one_deferred_invocation 100 init Hr) as [H1 H2].
  split; [exact H1|]. split.
  - destruct (proj1 (H2 1000 tt "a" Hl) (1030, tt, "b") [(1060, tt, "c")] Hc)
      as (w1 & log1 & id & cb & Hrun & Hinv & _ & _ & _ & Hb).
    exists w1, log1. split; [exact Hrun|]. split; [exact Hinv|exact Hb].
  - assert (Forall (in_window 100 1000)
              [Call 1030 tt "b"; Call 1060 tt "c"; Fire 1 1100 Returns])
      as Hw by (repeat constructor; simpl; lia).
    assert (StronglySorted Z.le
              (readings [Call 1030 tt "b"; Call 1060 tt "c";
                         Fire 1 1100 Returns])) as Hs
      by (unfold readings; simpl; repeat constructor; lia).
    assert (timely 100 [Call 1030 tt "b"; Call 1060 tt "c";
                        Fire 1 1100 Returns]
              (fst (throttled 100 1000 tt "a" init)) = true) as Htm
      by (vm_compute; reflexivity).
    assert (run 100 [Call 1000 tt "a"; Call 1030 tt "b"; Call 1060 tt "c";
                     Fire 1 1100 Returns] init
            = Some ({| vars := {| timeoutId := None; lastArgs := None;
                                  lastCallTime := 1100 |};
                       host := {| timers := ∅; nextId := 2 |} |},
                    [Invoke tt "a"; SetTimeout 1 70; Invoke tt "b"]))
      as Hrun by (vm_compute; reflexivity).
    exact (proj2 (H2 1000 tt "a" Hl) _ _ _ Hw Hs Htm Hrun).
Defined.

(** C6 at [w_pending]. *)
Lemma cancelled_timer_never_fires_witness :
  reachable 100 w_pending ∧
  timeoutId (vars w_pending) = Some 1%positive ∧
  snd (cancel w_pending) = [ClearTimeout 1] ∧
  ∀ now out, fire 1 now out (fst (cancel w_pending)) = None.
Proof.
  assert (reachable 100 w_pending) as Hr.
  { exists [Call 1000 tt "a"; Call 1030 tt "b"],
           [Invoke tt "a"; SetTimeout 1 70].
    vm_compute. reflexivity. }
  assert (timeoutId (vars w_pending) = Some 1%positive) as Ht
    by reflexivity.
  split; [exact Hr|]. split; [exact Ht|].
  destruct (cancelled_timer_never_fires 100 w_pending 1 Hr Ht)
    as (H1 & _ & H2).
  split; [exact H1|].
  exact (proj1 (H2 [] (fst (cancel w_pending)) [] eq_refl)).
Defined.

(** C9, counterexample.  The clock steps back from 1000 to 500 between two
    calls.  Both calls take the leading-edge branch (the second by
    [remaining > wait]) and call [func]; [lastCallTime] goes from 1000 down
    to 500. *)
Lemma lastCallTime_decreases_when_clock_steps_back :
  (∃ w, run 100 [Call 1000 tt "a"; Call 500 tt "b"] init
        = Some (w, [Invoke tt "a"; Invoke tt "b"]) ∧
        lastCallTime (vars w) = 500) ∧
  firing_times 100 [Call 1000 tt "a"; Call 500 tt "b"] init = [1000; 500] ∧
  ¬ StronglySorted Z.le
      (firing_times 100 [Call 1000 tt "a"; Call 500 tt "b"] init).
Proof.
  split; [eexists; by vm_compute|]. split; [by vm_compute|].
  change (firing_times 100 [Call 1000 tt "a"; Call 500 tt "b"] init)
    with [1000; 500].
  rewrite StronglySorted_cons, Forall_cons. intros [[H _] _]. lia.
Qed.

(** C9 on the scenario run. *)
Lemma lastCallTime_monotone_with_clock_witness :
  StronglySorted Z.le
    (readings [Call 1000 tt "a"; Call 1030 tt "b"; Call 1060 tt "c";
               Fire 1 1100 Returns; Call 1250 tt "d"]) ∧
  StronglySorted Z.le
    (firing_times 100 [Call 1000 tt "a"; Call 1030 tt "b"; Call 1060 tt "c";
                       Fire 1 1100 Returns; Call 1250 tt "d"] init) ∧
  firing_times 100 [Call 1000 tt "a"; Call 1030 tt "b"; Call 1060 tt "c";
                    Fire 1 1100 Returns; Call 1250 tt "d"] init
    = [1000; 1100; 1250].
Proof.
  assert (StronglySorted Z.le
            (readings [Call 1000 tt "a"; Call 1030 tt "b";
                       Call 1060 tt "c"; Fire 1 1100 Returns;
                       Call 1250 tt "d"])) as Hs.
  { unfold readings; simpl. repeat constructor; lia. }
  split; [exact Hs|]. split; [|reflexivity].
  exact (proj1 (lastCallTime_monotone_with_clock 100 _ init Hs)).
Defined.

(** ** The further properties on the concrete wrapper *)

Ltac by_running es log := exists es, log; vm_compute; reflexivity.

(** X1 at [w_pending]. *)
Lemma pending_timer_due_after_wait_witness :
  reachable 100 w_pending ∧
  timers (host w_pending) !! 1%positive
    = Some {| t_delay := 70; t_set := 1030; t_this := tt; t_args := "b" |} ∧
  0 < 70 <= 100 ∧ 1030 + 70 = 1000 + 100.
Proof.
  assert (reachable 100 w_pending) as Hr
    by by_running [Call 1000 tt "a"; Call 1030 tt "b"]
                  [Invoke tt "a"; SetTimeout 1 70].
  assert (timers (host w_pending) !! 1%positive
          = Some {| t_delay := 70; t_set := 1030; t_this := tt;
                    t_args := "b" |}) as Hl by (vm_compute; reflexivity).
  split; [exact Hr|]. split; [exact Hl|].
  exact (pending_timer_due_after_wait 100 w_pending 1 _ Hr Hl).
Defined.

(** X2 at [w_pending]: a call at 1200 runs [func], a call at 1060 does
    not. *)
Lemma immediate_iff_window_elapsed_witness :
  invocations (snd (throttled 100 1200 tt "c" w_pending)) = [(tt, "c")] ∧
  invocations (snd (throttled 100 1060 tt "c" w_pending)) = [].
Proof.
  split.
  - apply (proj1 (immediate_iff_window_elapsed 100 w_pending 1200 tt "c")).
    left. simpl. lia.
  - apply (proj2 (immediate_iff_window_elapsed 100 w_pending 1060 tt "c")).
    simpl. lia.
Defined.

(** X3 with [wait = -5]. *)
Lemma nonpositive_wait_never_defers_witness :
  -5 <= 0 ∧
  invocations (snd (throttled (-5) 3 tt "a" init)) = [(tt, "a")] ∧
  scheduled (snd (throttled (-5) 3 tt "a" init)) = [].
Proof.
  assert (-5 <= 0) as Hw by lia.
  split; [exact Hw|].
  exact (nonpositive_wait_never_defers (-5) init 3 tt "a" Hw).
Defined.

(** X4 at [w_pending] and [cancel()]. *)
Lemma clearTimeout_only_on_active_timer_witness :
  reachable 100 w_pending ∧
  step 100 Cancel w_pending
    = Some ({| vars := init_vars;
               host := {| timers := ∅; nextId := 2 |} |},
            [ClearTimeout 1]) ∧
  In 1%positive (cleared [ClearTimeout (This:=unit) (Args:=string) 1]) ∧
  is_Some (timers (host w_pending) !! 1%positive).
Proof.
  assert (reachable 100 w_pending) as Hr
    by by_running [Call 1000 tt "a"; Call 1030 tt "b"]
                  [Invoke tt "a"; SetTimeout 1 70].
  assert (step 100 Cancel w_pending
          = Some ({| vars := init_vars;
                     host := {| timers := ∅; nextId := 2 |} |},
                  [ClearTimeout 1])) as Hs by (vm_compute; reflexivity).
  assert (In 1%positive (cleared [ClearTimeout (This:=unit) (Args:=string) 1]))
    as Hin by (left; reflexivity).
  split; [exact Hr|]. split; [exact Hs|]. split; [exact Hin|].
  exact (proj1 (clearTimeout_only_on_active_timer 100 w_pending Cancel _ _ 1
                  Hr Hs Hin)).
Defined.


(** X6 on the scenario: [func] runs at 1000, 1100 and 1250. *)
Lemma invocations_spaced_by_wait_witness :
  reachable 100 (init : World unit string) ∧
  Forall (λ e : Event unit string, ¬ is_cancel e) scenario ∧
  StronglySorted Z.le (readings scenario) ∧
  timely 100 scenario init = true ∧
  firing_times 100 scenario init = [1000; 1100; 1250] ∧
  spaced 100 (firing_times 100 scenario init).
Proof.
  assert (reachable 100 (init : World unit string)) as Hr
    by (exists [], []; reflexivity).
  assert (Forall (λ e : Event unit string, ¬ is_cancel e) scenario) as Hnc
    by (repeat constructor; simpl; tauto).
  assert (StronglySorted Z.le (readings scenario)) as Hs
    by (unfold readings; simpl; repeat constructor; lia).
  assert (timely 100 scenario init = true) as Htm
    by (vm_compute; reflexivity).
  split; [exact Hr|]. split; [exact Hnc|]. split; [exact Hs|].
  split; [exact Htm|]. split; [reflexivity|].
  exact (proj1 (invocations_spaced_by_wait 100 scenario init Hr Hnc Hs Htm)).
Defined.

(** X8 from [w_pending]: the pending call "b" and the call "d" run, the
    dropped call "c" does not. *)
Lemma invocations_sublist_of_calls_witness :
  reachable 100 w_pending ∧
  run 100 [Call 1060 tt "c"; Fire 1 1100 Returns; Call 1250 tt "d"] w_pending
    = Some ({| vars := {| timeoutId := None; lastArgs := None;
                          lastCallTime := 1250 |};
               host := {| timers := ∅; nextId := 2 |} |},
            [Invoke tt "b"; Invoke tt "d"]) ∧
  [(tt, "b"); (tt, "d")] `sublist_of` [(tt, "b"); (tt, "c"); (tt, "d")].
Proof.
  assert (reachable 100 w_pending) as Hr
    by by_running [Call 1000 tt "a"; Call 1030 tt "b"]
                  [Invoke tt "a"; SetTimeout 1 70].
  assert (run 100 [Call 1060 tt "c"; Fire 1 1100 Returns; Call 1250 tt "d"]
            w_pending
          = Some ({| vars := {| timeoutId := None; lastArgs := None;
                                lastCallTime := 1250 |};
                     host := {| timers := ∅; nextId := 2 |} |},
                  [Invoke tt "b"; Invoke tt "d"])) as Hrun
    by (vm_compute; reflexivity).
  split; [exact Hr|]. split; [exact Hrun|].
  exact (invocations_sublist_of_calls 100 _ w_pending _ _ Hr Hrun).
Defined.

(** X9 from [w_fired], with a throwing [func] on the way. *)
Lemma stored_args_without_timer_are_dead_witness :
  reachable 100 w_fired ∧
  timeoutId (vars w_fired) = None ∧
  ∃ w w'',
    run 100 [Call 1030 tt "b"; Fire 1 1100 Throws; Call 1250 tt "d"] w_fired
      = Some (w, [SetTimeout 1 70; Invoke tt "b"; Invoke tt "d"]) ∧
    run 100 [Call 1030 tt "b"; Fire 1 1100 Throws; Call 1250 tt "d"]
      (with_lastArgs (Some "stale") w_fired)
      = Some (w'', [SetTimeout 1 70; Invoke tt "b"; Invoke tt "d"]).
Proof.
  assert (reachable 100 w_fired) as Hr
    by by_running [Call 1000 tt "a"] [Invoke tt "a"].
  assert (timeoutId (vars w_fired) = None) as Ht by reflexivity.
  assert (run 100 [Call 1030 tt "b"; Fire 1 1100 Throws; Call 1250 tt "d"]
            w_fired
          = Some ({| vars := {| timeoutId := None; lastArgs := Some "b";
                                lastCallTime := 1250 |};
                     host := {| timers := ∅; nextId := 2 |} |},
                  [SetTimeout 1 70; Invoke tt "b"; Invoke tt "d"])) as Hrun
    by (vm_compute; reflexivity).
  split; [exact Hr|]. split; [exact Ht|].
  destruct (stored_args_without_timer_are_dead 100 (Some "stale") _ w_fired
              _ _ Hr Ht Hrun) as (w'' & Hrun' & _).
  eexists _, w''. split; [exact Hrun|exact Hrun'].
Defined.

(** X11 at [w_pending]: the late call at 1200 clears timer 1, which cannot
    run afterwards. *)
Lemma timer_never_runs_again_witness :
  reachable 100 w_pending ∧
  In 1%positive (cleared (snd (throttled 100 1200 tt "c" w_pending))) ∧
  ∃ w2 l2,
    run 100 [Call 1250 tt "d"] (fst (throttled 100 1200 tt "c" w_pending))
      = Some (w2, l2) ∧
    fire 1 1300 Returns w2 = None.
Proof.
  assert (reachable 100 w_pending) as Hr
    by by_running [Call 1000 tt "a"; Call 1030 tt "b"]
                  [Invoke tt "a"; SetTimeout 1 70].
  assert (step 100 (Call 1200 tt "c") w_pending
          = Some (fst (throttled 100 1200 tt "c" w_pending),
                  snd (throttled 100 1200 tt "c" w_pending))) as Hs
    by (vm_compute; reflexivity).
  assert (In 1%positive (cleared (snd (throttled 100 1200 tt "c" w_pending))))
    as Hin by (left; reflexivity).
  assert (run 100 [Call 1250 tt "d"]
            (fst (throttled 100 1200 tt "c" w_pending))
          = Some ({| vars := {| timeoutId := Some 2%positive;
                                lastArgs := Some "d";
                                lastCallTime := 1200 |};
                     host := {| timers :=
                                  {[ 2%positive :=
                                       {| t_delay := 50; t_set := 1250;
                                          t_this := tt; t_args := "d" |} ]};
                                nextId := 3 |} |},
                  [SetTimeout 2 50])) as Hrun by (vm_compute; reflexivity).
  split; [exact Hr|]. split; [exact Hin|]. eexists _, _.
  split; [exact Hrun|].
  exact (timer_never_runs_again 100 w_pending _ _ _ 1 _ _ _ 1300 Returns
           Hr Hs (or_introl Hin) Hrun).
Defined.

(** X12 on the scenario: three calls of [func] between 1000 and 1250. *)
Lemma invocation_rate_bounded_witness :
  reachable 100 (init : World unit string) ∧
  Forall (λ e : Event unit string, ¬ is_cancel e) scenario ∧
  StronglySorted Z.le (readings scenario) ∧
  timely 100 scenario init = true ∧
  0 <= 100 ∧ 1000 <= 1250 ∧
  Forall (λ r, 1000 <= r <= 1250) (readings scenario) ∧
  (Z.of_nat (length (firing_times 100 scenario init)) - 1) * 100
    <= 1250 - 1000.
Proof.
  assert (reachable 100 (init : World unit string)) as Hr
    by (exists [], []; reflexivity).
  assert (Forall (λ e : Event unit string, ¬ is_cancel e) scenario) as Hnc
    by (repeat constructor; simpl; tauto).
  assert (StronglySorted Z.le (readings scenario)) as Hs
    by (unfold readings; simpl; repeat constructor; lia).
  assert (timely 100 scenario init = true) as Htm
    by (vm_compute; reflexivity).
  assert (0 <= 100) as Hw by lia.
  assert (1000 <= 1250) as Hab by lia.
  assert (Forall (λ r, 1000 <= r <= 1250) (readings scenario)) as Hin
    by (unfold readings; simpl; repeat constructor; lia).
  split; [exact Hr|]. split; [exact Hnc|]. split; [exact Hs|].
  split; [exact Htm|]. split; [exact Hw|]. split; [exact Hab|].
  split; [exact Hin|].
  exact (invocation_rate_bounded 100 scenario init 1000 1250
           Hr Hnc Hs Htm Hw Hab Hin).
Defined.

(** ** A [func] that calls the wrapper, on the concrete wrapper *)

(** C10.  The code at the failing input.  Inside the callback of timer 1,
    [func] calls the wrapper with "c": the handle was cleared before [func]
    was called, so the call is deferred, stores ["c"] and schedules timer 2;
    when [func] returns, [lastArgs = null] wipes the arguments just stored.
    Timer 2 stays pending with no stored arguments; when it runs it does not
    call [func], and "c" is lost. *)
Lemma call_from_timer_callback_is_lost :
  play 100 nested_call start
    = Some (m_wiped, [Invoke tt "a"; SetTimeout 1 70; Invoke tt "b";
                      SetTimeout 2 100]) ∧
  timeoutId (vars (m_world m_wiped)) = Some 2%positive ∧
  lastArgs (vars (m_world m_wiped)) = None ∧
  timers (host (m_world m_wiped)) !! 2%positive
    = Some {| t_delay := 100; t_set := 1100; t_this := tt; t_args := "c" |} ∧
  move 100 (MEnter 2 1200) m_wiped
    = Some ({| m_world :=
                 {| vars := {| timeoutId := None; lastArgs := None;
                               lastCallTime := 1200 |};
                    host := {| timers := ∅; nextId := 3 |} |};
               m_running := false |}, []) ∧
  ¬ pending_iff (m_world m_wiped).
Proof.
  split; [by vm_compute|]. split; [done|]. split; [done|].
  split; [by vm_compute|]. split; [by vm_compute|].
  intros [H _]. destruct H as [a Ha]; [by eexists|]. discriminate Ha.
Qed.

(** C7 at [w_pending], and at [m_wiped], the state a [func] that calls the
    wrapper leaves. *)
Lemma cancel_idempotent_witness :
  timeoutId (vars w_pending) = Some 1%positive ∧
  reachable 100 w_pending ∧
  playable 100 m_wiped ∧
  snd (cancel w_pending) = [ClearTimeout 1] ∧
  timers (host (fst (cancel w_pending))) = ∅ ∧
  timers (host (fst (cancel (m_world m_wiped)))) = ∅.
Proof.
  assert (timeoutId (vars w_pending) = Some 1%positive) as Ht
    by reflexivity.
  assert (reachable 100 w_pending) as Hr
    by by_running [Call 1000 tt "a"; Call 1030 tt "b"]
                  [Invoke tt "a"; SetTimeout 1 70].
  assert (playable 100 m_wiped) as Hp
    by by_running nested_call
                  [Invoke tt "a"; SetTimeout 1 70; Invoke tt "b";
                   SetTimeout (This:=unit) (Args:=string) 2 100].
  split; [exact Ht|]. split; [exact Hr|]. split; [exact Hp|].
  destruct (cancel_idempotent 100 w_pending)
    as (_ & _ & _ & _ & _ & H1 & _ & H2 & _).
  destruct (cancel_idempotent 100 (m_world m_wiped))
    as (_ & _ & _ & _ & _ & _ & _ & _ & H3 & _).
  split; [exact (proj1 (H1 1%positive Ht))|].
  split; [exact (H2 Hr)|exact (H3 m_wiped Hp eq_refl)].
Defined.

(** X7 on the moves of [nested_call] followed by the callback of timer 2:
    the callback calls nothing and still writes [lastCallTime]. *)
Lemma lastCallTime_is_last_stamp_witness :
  Forall (λ mv : Move unit string, ¬ is_mcancel mv)
    (nested_call ++ [MEnter 2 1200]) ∧
  play 100 (nested_call ++ [MEnter 2 1200]) start
    = Some ({| m_world :=
                 {| vars := {| timeoutId := None; lastArgs := None;
                               lastCallTime := 1200 |};
                    host := {| timers := ∅; nextId := 3 |} |};
               m_running := false |},
            [Invoke tt "a"; SetTimeout 1 70; Invoke tt "b";
             SetTimeout 2 100]) ∧
  stamps 100 (nested_call ++ [MEnter 2 1200]) start = [1000; 1100; 1200] ∧
  1200 = default 0 (last (stamps 100 (nested_call ++ [MEnter 2 1200]) start)).
Proof.
  assert (Forall (λ mv : Move unit string, ¬ is_mcancel mv)
            (nested_call ++ [MEnter 2 1200])) as Hnc
    by (repeat constructor; simpl; tauto).
  assert (play 100 (nested_call ++ [MEnter 2 1200]) start
          = Some ({| m_world :=
                       {| vars := {| timeoutId := None; lastArgs := None;
                                     lastCallTime := 1200 |};
                          host := {| timers := ∅; nextId := 3 |} |};
                     m_running := false |},
                  [Invoke tt "a"; SetTimeout 1 70; Invoke tt "b";
                   SetTimeout 2 100])) as Hp by (vm_compute; reflexivity).
  split; [exact Hnc|]. split; [exact Hp|]. split; [reflexivity|].
  exact (lastCallTime_is_last_stamp 100 _ start _ _ Hnc Hp).
Defined.

(** X10 after the calls at 1000 and 1030, and a call at 1060: the timer
    stays. *)
Lemma tame_call_runs_or_leaves_timer_witness :
  play 100 [MCall 1000 tt "a"; MCall 1030 tt "b"] start
    = Some ({| m_world := w_pending; m_running := false |},
            [Invoke tt "a"; SetTimeout 1 70]) ∧
  tame 100 [MCall 1000 tt "a"; MCall (This:=unit) 1030 tt "b"] start = true ∧
  (invocations (snd (throttled 100 1060 tt "c" w_pending)) = [(tt, "c")] ∧
   timers (host (fst (throttled 100 1060 tt "c" w_pending))) = ∅ ∨
   invocations (snd (throttled 100 1060 tt "c" w_pending)) = [] ∧
   ∃ id cb,
     timeoutId (vars (fst (throttled 100 1060 tt "c" w_pending))) = Some id ∧
     timers (host (fst (throttled 100 1060 tt "c" w_pending)))
       = {[ id := cb ]} ∧
     ∀ now', ∃ m'',
       move 100 (MEnter id now')
         {| m_world := fst (throttled 100 1060 tt "c" w_pending);
            m_running := false |}
       = Some (m'', [Invoke (t_this cb) (t_args cb)])).
Proof.
  assert (play 100 [MCall 1000 tt "a"; MCall 1030 tt "b"] start
          = Some ({| m_world := w_pending; m_running := false |},
                  [Invoke tt "a"; SetTimeout 1 70])) as Hp
    by (vm_compute; reflexivity).
  assert (tame 100 [MCall 1000 tt "a"; MCall (This:=unit) 1030 tt "b"] start
          = true) as Htm by (vm_compute; reflexivity).
  split; [exact Hp|]. split; [exact Htm|].
  exact (tame_call_runs_or_leaves_timer 100 _ _ _ 1060 tt "c" Hp Htm
           eq_refl).
Defined.

(** X13 after the calls at 1000 and 1030: the callback of timer 1 finds
    "b". *)
Lemma tame_callback_finds_scheduling_args_witness :
  play 100 [MCall 1000 tt "a"; MCall 1030 tt "b"] start
    = Some ({| m_world := w_pending; m_running := false |},
            [Invoke tt "a"; SetTimeout 1 70]) ∧
  tame 100 [MCall 1000 tt "a"; MCall (This:=unit) 1030 tt "b"] start = true ∧
  move 100 (MEnter 1 1100) {| m_world := w_pending; m_running := false |}
    = Some ({| m_world :=
                 {| vars := {| timeoutId := None; lastArgs := Some "b";
                               lastCallTime := 1100 |};
                    host := {| timers := ∅; nextId := 2 |} |};
               m_running := true |}, [Invoke tt "b"]) ∧
  lastArgs (vars w_pending) = Some "b".
Proof.
  assert (play 100 [MCall 1000 tt "a"; MCall 1030 tt "b"] start
          = Some ({| m_world := w_pending; m_running := false |},
                  [Invoke tt "a"; SetTimeout 1 70])) as Hp
    by (vm_compute; reflexivity).
  assert (tame 100 [MCall 1000 tt "a"; MCall (This:=unit) 1030 tt "b"] start
          = true) as Htm by (vm_compute; reflexivity).
  assert (move 100 (MEnter 1 1100)
            {| m_world := w_pending; m_running := false |}
          = Some ({| m_world :=
                       {| vars := {| timeoutId := None; lastArgs := Some "b";
                                     lastCallTime := 1100 |};
                          host := {| timers := ∅; nextId := 2 |} |};
                     m_running := true |}, [Invoke tt "b"])) as Hm
    by (vm_compute; reflexivity).
  split; [exact Hp|]. split; [exact Htm|]. split; [exact Hm|].
  destruct (proj2 (proj2 (tame_callback_finds_scheduling_args 100 _ _ _
                            Hp Htm)) 1%positive 1100 _ _ Hm)
    as (cb & Hl & Ha & _).
  injection Hl as <-. exact Ha.
Defined.
